(** * idb client facade ([idb/client/grpc.py]): a shallow embedding

    The facade talks to the daemon spawner, the companion resolver, the
    call registry, the archive generator and the gRPC transport.  What the
    facade does to them is recorded as an [event] in one trace, and what
    they answer is read from an [Env] of oracles that see the trace so far.
    A Python computation is a function from the facade object and the trace
    to a [result] and the new facade object and trace; a raised exception
    keeps the changes made before it. *)

From Stdlib Require Import ZArith.
From stdpp Require Import gmap strings list.

Local Open Scope Z_scope.
Local Open Scope string_scope.
Local Open Scope list_scope.

(** ** Exceptions *)

(** The argument an [IdbException] is built with: [e.message] of a
    [GRPCError] (an optional string) or the [args] tuple of a transport
    exception. *)
Inductive exn_arg :=
| ArgMessage (message : option string)
| ArgTuple (args : list string).

Inductive exn :=
| GRPCError (status : Z) (message : option string)
| ProtocolError (args : list string)
| StreamTerminatedError (args : list string)
| IdbException (arg : exn_arg)
| KeyError (key : string)
| AttributeError (msg : string)
| OtherError (cls : string) (args : list string).

Inductive result (A : Type) :=
| Ok (a : A)
| Raise (e : exn).
Arguments Ok {A} a.
Arguments Raise {A} e.

Definition is_IdbException (e : exn) : bool :=
  match e with IdbException _ => true | _ => false end.

(** ** Messages of the companion service ([idb.grpc.idb_pb2]) *)

Inductive Permission := PHOTOS | CAMERA | CONTACTS.

Inductive Payload :=
| Payload_file_path (file_path : string)
| Payload_data (data : list Byte.byte).

Inductive request :=
| ListAppsRequest
| AccessibilityInfoRequest (point : option (Z * Z))
| AddMediaRequest (payload : Payload)
| ApproveRequest (bundle_id : string) (permissions : list Permission).

(** One app record of a [ListAppsResponse]. *)
Record CompanionApp := {
  app_bundle_id : string;
  app_name : string;
  app_architectures : list string;
  app_install_type : string;
  app_process_state : Z;
  app_debuggable : bool
}.

(** ** Types of [idb.common.types] and [idb.grpc.types] *)

(** Modelled from the spec: [CompanionInfo] is declared in
    [idb.common.types], a module other than the facade's; the spec gives
    the record as PeerInfo with a host, a port, an optional device
    identifier and a locality flag. *)
Record CompanionInfo := {
  ci_udid : option string;
  ci_host : string;
  ci_port : Z;
  is_local : bool
}.

(** [AppProcessState] is an enumeration of [idb.common.types], which is
    a module other than the facade's: a member is known by its integer, and
    which integers are members is left to the environment. *)
Record AppProcessState := { state_value : Z }.

Record InstalledAppInfo := {
  bundle_id : string;
  name : string;
  architectures : list string;
  install_type : string;
  process_state : AppProcessState;
  debuggable : bool
}.

Record AccessibilityInfo := { json : string }.

(** A [Channel] object; [ch_id] is its identity (the length of the trace
    when it was constructed), so two channels built by two constructor
    calls differ even for the same address. *)
Record Channel := { ch_host : string; ch_port : Z; ch_id : nat }.

Record CompanionServiceStub := { channel_of : Channel }.

Record CompanionClient := {
  cc_stub : CompanionServiceStub;
  cc_is_local : bool;
  cc_udid : option string;
  cc_logger : string
}.

(** ** The trace *)

Inductive log_msg :=
| UsingCompanion (ci : CompanionInfo)
| LoggedException (e : exn).

Inductive event :=
| EvLogCall (name : string)
| EvLogInfo (logger : string) (msg : log_msg)
| EvStartDaemon (host : string) (port : Z) (force_kill : bool)
| EvChannel (ch : Channel)
| EvUnary (ch : Channel) (method : string) (req : request)
| EvStreamOpen (ch : Channel) (method : string)
| EvSend (req : request)
| EvEnd
| EvRecv
| EvClose.

Abbreviation trace := (list event).

(** The events that reach the network: a channel being built or anything
    sent or read on one. *)
Definition is_network (e : event) : bool :=
  match e with
  | EvChannel _ | EvUnary _ _ _ | EvStreamOpen _ _
  | EvSend _ | EvEnd | EvRecv | EvClose => true
  | _ => false
  end.

Definition is_dial (e : event) : bool :=
  match e with EvChannel _ => true | _ => false end.

Definition is_start_daemon (e : event) : bool :=
  match e with EvStartDaemon _ _ _ => true | _ => false end.

(** ** The facade object *)

Record GrpcClient := {
  port : Z;
  host : string;
  logger : string;
  force_kill_daemon : bool;
  target_udid : option string;
  daemon_channel : option Channel;
  daemon_stub : option CompanionServiceStub;
  channel : option Channel;
  stub : option CompanionServiceStub;
  companion_info : option CompanionInfo
}.

Definition set_daemon (ch : Channel) (st : CompanionServiceStub)
    (self : GrpcClient) : GrpcClient :=
  {| port := port self; host := host self; logger := logger self;
     force_kill_daemon := force_kill_daemon self;
     target_udid := target_udid self;
     daemon_channel := Some ch; daemon_stub := Some st;
     channel := channel self; stub := stub self;
     companion_info := companion_info self |}.

(** ** Computations *)

Abbreviation state := (GrpcClient * list event)%type.

Definition M (A : Type) : Type := state → result A * state.

#[global] Instance M_ret : MRet M := λ A a s, (Ok a, s).

#[global] Instance M_bind : MBind M := λ A B f c s,
  match c s with
  | (Ok a, s') => f a s'
  | (Raise e, s') => (Raise e, s')
  end.

#[global] Instance M_throw : MThrow exn M := λ A e s, (Raise e, s).

Definition get_self : M GrpcClient := λ s, (Ok (fst s), s).
Definition put_self (self : GrpcClient) : M unit := λ s, (Ok tt, (self, snd s)).
Definition get_trace : M trace := λ s, (Ok (snd s), s).
Definition emit (e : event) : M unit := λ s, (Ok tt, (fst s, snd s ++ [e])).

(** [try: c except: h]: the handler sees the exception and either takes it
    ([Some]) or lets it pass ([None]). *)
Definition try_except {A} (c : M A) (h : exn → option (M A)) : M A := λ s,
  match c s with
  | (Ok a, s') => (Ok a, s')
  | (Raise e, s') =>
      match h e with
      | Some k => k s'
      | None => (Raise e, s')
      end
  end.

(** [try: c finally: f] *)
Definition try_finally {A} (c : M A) (f : M unit) : M A := λ s,
  match c s with
  | (r, s') =>
      match f s' with
      | (Ok _, s'') => (r, s'')
      | (Raise e, s'') => (Raise e, s'')
      end
  end.

(** The answer of a collaborator: raise what the oracle says, or go on. *)
Definition lift_result {A} (r : result A) : M A := λ s, (r, s).

Definition lift_fault (o : option exn) : M unit :=
  match o with
  | Some e => mthrow e
  | None => mret tt
  end.

(** A Python callable taking [A]: calling it is a computation.  An
    [async def] function returns at once, with a coroutine object that has
    not run yet; awaiting the object runs its body. *)
Definition coroutine (R : Type) : Type := M R.

Definition async_def {A R} (body : A → M R) : A → M (coroutine R) :=
  λ args, mret (body args).

Definition await {R} (call : M (coroutine R)) : M R :=
  c ← call; c.

(** ** [log_call] and [log_and_handle_exceptions] *)

(** Modelled from the spec: [log_call] is the decorator of
    [idb.common.logging], a module other than the facade's.  The spec has
    it log, before invocation, a call-boundary event carrying the operation
    name; the decorated function is then invoked and awaited, and what it
    returns or raises is the caller's. *)
Definition log_call {A R} (name : string) (function : A → M (coroutine R))
    : A → M (coroutine R) :=
  async_def (λ args, emit (EvLogCall name);; await (function args)).

Definition handle_exceptions {R} (e : exn) : option (M R) :=
  match e with
  | GRPCError _ message => Some (mthrow (IdbException (ArgMessage message)))
  | ProtocolError args | StreamTerminatedError args =>
      Some (mthrow (IdbException (ArgTuple args)))
  | _ => None
  end.

(** [func_wrapper] is a plain [def]: the [try] block is around the call
    of [func] on the arguments, and the value of that call is returned as
    it is. *)
Definition func_wrapper {A R} (func : A → M (coroutine R))
    : A → M (coroutine R) :=
  λ args, try_except (func args) handle_exceptions.

Definition log_and_handle_exceptions {A R} (name : string)
    (func : A → M (coroutine R)) : A → M (coroutine R) :=
  log_call name (func_wrapper func).

(** ** Collaborators *)

(** A Python value passed to or returned by a call of the registry. *)
Inductive pyval :=
| PyNone
| PyBool (b : bool)
| PyInt (z : Z)
| PyStr (s : string).

(** A call installed on the facade: an async callable. *)
Definition handler : Type := list pyval → M (coroutine pyval).

(** The daemon provider handed to the registry: the bound method
    [self.provide_client]. *)
Definition provider : Type := unit → M (coroutine CompanionClient).

(** A finite asynchronous generator: the items it yields and what it
    raises, if anything, once they are exhausted. *)
Record async_gen (A : Type) := {
  gen_items : list A;
  gen_fault : option exn
}.
Arguments gen_items {A} _.
Arguments gen_fault {A} _.

(** What the modules around the facade answer.  Every oracle that
    stands for an effectful collaborator sees the trace, whose last event
    is the request it answers. *)
Record Env := {
  (** [DaemonSpawner.start_daemon_if_needed]: what it raises *)
  spawner_fault : trace → option exn;
  (** [DirectCompanionManager.get_companion_info] *)
  get_companion_info : option string → result CompanionInfo;
  (** the transport: what a request, a stream operation raises *)
  transport_fault : trace → option exn;
  (** the [apps] of the [ListAppsResponse] *)
  list_apps_reply : trace → list CompanionApp;
  (** the [json] of the [AccessibilityInfoResponse] *)
  accessibility_info_reply : trace → string;
  (** membership of the enumeration [AppProcessState] *)
  is_process_state : Z → bool;
  (** [idb.common.tar.generate_tar] *)
  generate_tar : list string → bool → async_gen (list Byte.byte);
  (** [ipc_loader.client_calls] *)
  client_calls : provider → list (string * handler)
}.

(** The data attributes [__init__] assigns before it installs the calls. *)
Definition data_attributes : list string :=
  ["port"; "host"; "logger"; "force_kill_daemon"; "target_udid";
   "daemon_spawner"; "daemon_channel"; "daemon_stub"].

Definition APPROVE_MAP : gmap string Permission :=
  {[ "photos" := PHOTOS; "camera" := CAMERA; "contacts" := CONTACTS ]}.

Section Client.

Variable E : Env.

(** ** The daemon connection *)

Definition start_daemon_if_needed (force_kill : bool) : M unit :=
  self ← get_self;
  emit (EvStartDaemon (host self) (port self) force_kill);;
  tr ← get_trace;
  lift_fault (spawner_fault E tr).

(** [Channel(host, port, loop=...)] *)
Definition Channel_new (h : string) (p : Z) : M Channel :=
  tr ← get_trace;
  let ch := {| ch_host := h; ch_port := p; ch_id := length tr |} in
  emit (EvChannel ch);;
  mret ch.

(** What [provide_client] does once the spawner has returned. *)
Definition provide_client_resume : M CompanionClient :=
  self ← get_self;
  st ← match daemon_channel self, daemon_stub self with
       | Some _, Some st => mret st
       | _, _ =>
           ch ← Channel_new (host self) (port self);
           let st := {| channel_of := ch |} in
           put_self (set_daemon ch st self);;
           mret st
       end;
  mret {| cc_stub := st; cc_is_local := true;
          cc_udid := target_udid self; cc_logger := logger self |}.

Definition provide_client : provider :=
  async_def (λ _,
    self ← get_self;
    start_daemon_if_needed (force_kill_daemon self);;
    provide_client_resume).

(** ** [metadata] *)

Definition metadata (self : GrpcClient) : gmap string string :=
  match target_udid self with
  | Some udid => if decide (udid = "") then ∅ else {[ "udid" := udid ]}
  | None => ∅
  end.

(** ** The direct companion calls *)

(** [self.stub.<attr>]: on a facade whose [stub] is [None] the attribute
    lookup fails. *)
Definition getattr_stub (attr : string) : M CompanionServiceStub :=
  self ← get_self;
  match stub self with
  | Some st => mret st
  | None =>
      mthrow (AttributeError
                ("'NoneType' object has no attribute '" +:+ attr +:+ "'"))
  end.

(** [self.companion_info]: the attribute exists only if the resolution at
    construction succeeded. *)
Definition getattr_companion_info : M CompanionInfo :=
  self ← get_self;
  match companion_info self with
  | Some ci => mret ci
  | None =>
      mthrow (AttributeError
                "'GrpcClient' object has no attribute 'companion_info'")
  end.

(** A request on the transport: recorded, then answered. *)
Definition transport (e : event) : M unit :=
  emit e;;
  tr ← get_trace;
  lift_fault (transport_fault E tr).

Definition unary (st : CompanionServiceStub) (method : string)
    (req : request) : M unit :=
  transport (EvUnary (channel_of st) method req).

Definition send_message (req : request) : M unit := transport (EvSend req).
Definition stream_end : M unit := transport EvEnd.
Definition recv_message : M unit := transport EvRecv.

(** [async with st.<method>.open() as stream: body] *)
Definition async_with_open {A} (st : CompanionServiceStub) (method : string)
    (body : M A) : M A :=
  transport (EvStreamOpen (channel_of st) method);;
  try_finally body (emit EvClose).

Definition AppProcessState_of (v : Z) : M AppProcessState :=
  if is_process_state E v then mret {| state_value := v |}
  else mthrow (OtherError "ValueError" []).

Definition InstalledAppInfo_of (app : CompanionApp) : M InstalledAppInfo :=
  ps ← AppProcessState_of (app_process_state app);
  mret {| bundle_id := app_bundle_id app; name := app_name app;
          architectures := app_architectures app;
          install_type := app_install_type app;
          process_state := ps; debuggable := app_debuggable app |}.

Definition list_apps_body (_ : unit) : M (list InstalledAppInfo) :=
  st ← getattr_stub "list_apps";
  unary st "list_apps" ListAppsRequest;;
  tr ← get_trace;
  mapM InstalledAppInfo_of (list_apps_reply E tr).

Definition accessibility_info_body (point : option (Z * Z))
    : M AccessibilityInfo :=
  let grpc_point := point in
  st ← getattr_stub "accessibility_info";
  unary st "accessibility_info" (AccessibilityInfoRequest grpc_point);;
  tr ← get_trace;
  mret {| json := accessibility_info_reply E tr |}.

(** Modelled from the spec: [stream_map] belongs to [idb.common.stream],
    a module other than the facade's; the spec has it map each chunk into
    a message, in order. *)
Definition stream_map {A B} (g : async_gen A) (f : A → B) : async_gen B :=
  {| gen_items := f <$> gen_items g; gen_fault := gen_fault g |}.

(** Modelled from the spec: [drain_to_stream] belongs to
    [idb.grpc.stream], a module other than the facade's; the spec has it
    drain the sequence onto the stream and then await the acknowledgment
    the way the local branch does (signal end-of-input, read one
    message). *)
Definition drain_to_stream (generator : async_gen request) : M unit :=
  mapM send_message (gen_items generator);;
  lift_fault (gen_fault generator);;
  stream_end;;
  recv_message.

Definition add_media_body (file_paths : list string) : M unit :=
  st ← getattr_stub "add_media";
  async_with_open st "add_media" (
    ci ← getattr_companion_info;
    if is_local ci then
      mapM (λ file_path,
              send_message (AddMediaRequest (Payload_file_path file_path)))
           file_paths;;
      stream_end;;
      recv_message
    else
      let generator :=
        stream_map (generate_tar E file_paths true)
                   (λ chunk, AddMediaRequest (Payload_data chunk)) in
      drain_to_stream generator).

(** [APPROVE_MAP[permission]] *)
Definition APPROVE_MAP_getitem (permission : string) : M Permission :=
  match APPROVE_MAP !! permission with
  | Some p => mret p
  | None => mthrow (KeyError permission)
  end.

(** [permissions] is a set of strings; the list is the order in which the
    comprehension iterates over it. *)
Definition approve_body (args : string * list string) : M unit :=
  let '(bundle, permissions) := args in
  st ← getattr_stub "approve";
  perms ← mapM APPROVE_MAP_getitem permissions;
  unary st "approve" (ApproveRequest bundle perms).

(** ** Construction *)

(** The facade after construction: its data attributes and the calls
    installed in its instance dictionary. *)
Record Facade := {
  fields : GrpcClient;
  calls : gmap string handler
}.

(** [setattr(self, call_name, f)].  [metadata] is a property of the class
    without a setter, so setting it on an instance fails; every other name
    lands in the instance dictionary.  (A registry name equal to one of the
    data attributes assigned before the loop would replace that attribute by
    the call; the record keeps the data attributes typed, so the embedding
    is that of registries whose names avoid [data_attributes].) *)
Definition setattr_call (call_name : string) (f : handler)
    (d : gmap string handler) : result (gmap string handler) :=
  if decide (call_name = "metadata")
  then Raise (AttributeError "can't set attribute")
  else Ok (<[call_name := f]> d).

Fixpoint install_calls (l : list (string * handler))
    (d : gmap string handler) : result (gmap string handler) :=
  match l with
  | [] => Ok d
  | (call_name, f) :: l' =>
      match setattr_call call_name f d with
      | Ok d' => install_calls l' d'
      | Raise e => Raise e
      end
  end.

Definition set_companion_info (ci : CompanionInfo) (self : GrpcClient)
    : GrpcClient :=
  {| port := port self; host := host self; logger := logger self;
     force_kill_daemon := force_kill_daemon self;
     target_udid := target_udid self;
     daemon_channel := daemon_channel self; daemon_stub := daemon_stub self;
     channel := channel self; stub := stub self;
     companion_info := Some ci |}.

Definition set_channel (ch : Channel) (self : GrpcClient) : GrpcClient :=
  {| port := port self; host := host self; logger := logger self;
     force_kill_daemon := force_kill_daemon self;
     target_udid := target_udid self;
     daemon_channel := daemon_channel self; daemon_stub := daemon_stub self;
     channel := Some ch; stub := stub self;
     companion_info := companion_info self |}.

Definition set_stub (st : CompanionServiceStub) (self : GrpcClient)
    : GrpcClient :=
  {| port := port self; host := host self; logger := logger self;
     force_kill_daemon := force_kill_daemon self;
     target_udid := target_udid self;
     daemon_channel := daemon_channel self; daemon_stub := daemon_stub self;
     channel := channel self; stub := Some st;
     companion_info := companion_info self |}.

Definition logger_info (msg : log_msg) : M unit :=
  self ← get_self;
  emit (EvLogInfo (logger self) msg).

(** The body of [__init__] from the loop over the registry on; the
    assignments before it are the initial object of [GrpcClient_new].  The
    result is the instance dictionary of installed calls: the attributes
    assigned after the loop take the place of a call of the same name. *)
Definition GrpcClient__init__ : M (gmap string handler) :=
  d ← lift_result (install_calls (client_calls E provide_client) ∅);
  let d := delete "direct_companion_manager" d in
  let d := delete "channel" d in
  let d := delete "stub" d in
  try_except
    (self ← get_self;
     ci ← lift_result (get_companion_info E (target_udid self));
     put_self (set_companion_info ci self);;
     logger_info (UsingCompanion ci);;
     ch ← Channel_new (ci_host ci) (ci_port ci);
     self ← get_self;
     put_self (set_channel ch self);;
     self ← get_self;
     put_self (set_stub {| channel_of := ch |} self);;
     mret (delete "companion_info" d))
    (λ e, match e with
          | IdbException _ => Some (logger_info (LoggedException e);; mret d)
          | _ => None
          end).

Definition GrpcClient_new (port : Z) (host : string)
    (target_udid : option string) (logger : option string)
    (force_kill_daemon : bool) (tr : trace) : result Facade * trace :=
  let self :=
    {| port := port; host := host;
       logger := default "idb_grpc_client" logger;
       force_kill_daemon := force_kill_daemon;
       target_udid := target_udid;
       daemon_channel := None; daemon_stub := None;
       channel := None; stub := None; companion_info := None |} in
  match GrpcClient__init__ (self, tr) with
  | (Ok d, (self', tr')) => (Ok {| fields := self'; calls := d |}, tr')
  | (Raise e, (_, tr')) => (Raise e, tr')
  end.

(** ** The decorated methods *)

Definition list_apps :=
  log_and_handle_exceptions "list_apps" (async_def list_apps_body).
Definition accessibility_info :=
  log_and_handle_exceptions "accessibility_info"
    (async_def accessibility_info_body).
Definition add_media :=
  log_and_handle_exceptions "add_media" (async_def add_media_body).
Definition approve :=
  log_and_handle_exceptions "approve" (async_def approve_body).

End Client.

(** ** Callers of [provide_client] under the event loop

    The event loop runs one task at a time and changes task only where the
    running one suspends.  [provide_client] has one [await], that of the
    spawner: a caller can be suspended inside the spawner any number of
    times, and once the spawner returns it runs to its [return] without
    suspending.  The spawner decides its answer when it is asked. *)

Inductive task :=
| Created
| InSpawner (pending : nat) (outcome : option exn)
| Finished (r : result CompanionClient).

Section EventLoop.

Variable E : Env.

(** How many more times the spawner suspends the caller whose request is
    the last event of the trace. *)
Variable suspensions : trace → nat.

Definition resume (pending : nat) (outcome : option exn) (s : state)
    : task * state :=
  match pending with
  | S n => (InSpawner n outcome, s)
  | O =>
      match outcome with
      | Some e => (Finished (Raise e), s)
      | None =>
          let '(r, s') := provide_client_resume s in (Finished r, s')
      end
  end.

Definition step_task (t : task) (s : state) : task * state :=
  match t with
  | Created =>
      let self := fst s in
      let tr :=
        snd s ++ [EvStartDaemon (host self) (port self)
                                (force_kill_daemon self)] in
      resume (suspensions tr) (spawner_fault E tr) (self, tr)
  | InSpawner n outcome => resume n outcome s
  | Finished r => (Finished r, s)
  end.


End EventLoop.




(** ** The spawner, read off the trace *)


(** ** Environments and facades to run the model on *)

Definition local_companion : CompanionInfo :=
  {| ci_udid := Some "sim-1"; ci_host := "localhost"; ci_port := 10882;
     is_local := true |}.

Definition remote_companion : CompanionInfo :=
  {| ci_udid := Some "dev-2"; ci_host := "10.0.0.7"; ci_port := 10882;
     is_local := false |}.

(** Every collaborator answers without a fault; the registry is empty. *)
Definition quiet (ci : CompanionInfo) (chunks : list (list Byte.byte))
    : Env :=
  {| spawner_fault := λ _, None;
     get_companion_info := λ _, Ok ci;
     transport_fault := λ _, None;
     list_apps_reply := λ _, [];
     accessibility_info_reply := λ _, "{}";
     is_process_state := λ v, Z.leb 0 v && Z.leb v 2;
     generate_tar := λ _ _, {| gen_items := chunks; gen_fault := None |};
     client_calls := λ _, [] |}.

(** A registry of one daemon-routed call, [ping], that asks the provider
    for the daemon client and returns; the resolver knows no companion. *)
Definition ping (daemon_provider : provider) : handler :=
  async_def (λ _, await (daemon_provider tt);; mret PyNone).

Definition unresolved : Env :=
  {| spawner_fault := λ _, None;
     get_companion_info := λ _,
       Raise (IdbException (ArgMessage (Some "no companion available")));
     transport_fault := λ _, None;
     list_apps_reply := λ _, [];
     accessibility_info_reply := λ _, "{}";
     is_process_state := λ v, Z.leb 0 v && Z.leb v 2;
     generate_tar := λ _ _, {| gen_items := []; gen_fault := None |};
     client_calls := λ daemon_provider, [("ping", ping daemon_provider)] |}.

(** The facade [__init__] builds against [unresolved]. *)
Definition unresolved_facade : Facade :=
  {| fields :=
       {| port := 9889; host := "localhost"; logger := "idb_grpc_client";
          force_kill_daemon := false; target_udid := Some "gone";
          daemon_channel := None; daemon_stub := None;
          channel := None; stub := None; companion_info := None |};
     calls :=
       delete "stub"
         (delete "channel"
            (delete "direct_companion_manager"
               (<[ "ping" := ping (provide_client unresolved) ]> ∅))) |}.

Definition unresolved_trace : trace :=
  [EvLogInfo "idb_grpc_client"
     (LoggedException
        (IdbException (ArgMessage (Some "no companion available"))))].

(** The transport answers every unary request with a structured fault. *)
Definition unavailable : Env :=
  {| spawner_fault := λ _, None;
     get_companion_info := λ _, Ok local_companion;
     transport_fault := λ tr,
       match last tr with
       | Some (EvUnary _ _ _) => Some (GRPCError 14 (Some "unavailable"))
       | _ => None
       end;
     list_apps_reply := λ _, [];
     accessibility_info_reply := λ _, "{}";
     is_process_state := λ v, Z.leb 0 v && Z.leb v 2;
     generate_tar := λ _ _, {| gen_items := []; gen_fault := None |};
     client_calls := λ _, [] |}.

(** The channel [__init__] builds to a resolved companion on an empty
    trace: the first event is the log line, the second the channel. *)
Definition companion_channel (ci : CompanionInfo) : Channel :=
  {| ch_host := ci_host ci; ch_port := ci_port ci; ch_id := 1 |}.

(** A facade object as [__init__] leaves it before any call. *)
Definition fresh (p : Z) (h : string) (udid : option string) (force : bool)
    (companion : option (CompanionInfo * Channel)) : GrpcClient :=
  {| port := p; host := h; logger := "idb_grpc_client";
     force_kill_daemon := force; target_udid := udid;
     daemon_channel := None; daemon_stub := None;
     channel := snd <$> companion;
     stub := (λ c, {| channel_of := snd c |}) <$> companion;
     companion_info := fst <$> companion |}.

(** The facade [__init__] builds for a resolved companion. *)
Definition resolved (ci : CompanionInfo) : GrpcClient :=
  fresh 9889 "localhost" (ci_udid ci) false
    (Some (ci, companion_channel ci)).

(** * What is stated of the facade *)

(** A computation [extends] the trace: it appends what it does and
    rewrites nothing. *)
Definition extends {A} (c : M A) : Prop :=
  ∀ self tr, ∃ rest, snd (snd (c (self, tr))) = tr ++ rest.

(** The first thing the computation does is to log the call-boundary event
    of [name]; whatever else it does comes after. *)
Definition logs_before_invocation {R} (name : string) (c : M R) : Prop :=
  ∀ self tr, ∃ rest, snd (snd (c (self, tr))) = tr ++ EvLogCall name :: rest.

(** The specification on the installed calls: whatever is installed on a
    facade under a name logs the call-boundary event of that name when it
    is invoked. *)
Definition every_installed_call_logs : Prop :=
  ∀ E p h u l k tr F tr' n f args,
    GrpcClient_new E p h u l k tr = (Ok F, tr') →
    calls F !! n = Some f →
    logs_before_invocation n (await (f args)).

(** The exception of an attribute lookup on a stub that is [None]. *)
Definition no_attribute (attr : string) : exn :=
  AttributeError ("'NoneType' object has no attribute '" +:+ attr +:+ "'").

(** The specification on [approve]: an unrecognized capability name makes
    it fail with the domain exception, with nothing put on the network. *)
Definition unknown_permission_is_domain_error : Prop :=
  ∀ E self tr bundle permissions p,
    p ∈ permissions → APPROVE_MAP !! p = None →
    ∃ a s', await (approve E (bundle, permissions)) (self, tr)
              = (Raise (IdbException a), s') ∧
            filter is_network (snd s') = filter is_network tr.

(** The specification on the direct calls: after a failed resolution a
    direct companion call fails with the domain exception. *)
Definition direct_call_fails_with_domain_error : Prop :=
  ∀ E p h u l k tr a F tr',
    get_companion_info E u = Raise (IdbException a) →
    GrpcClient_new E p h u l k tr = (Ok F, tr') →
    ∀ tr2, ∃ x s', await (list_apps E tt) (fields F, tr2)
                     = (Raise (IdbException x), s').



(** [n] invocations of the provider in sequence, with their results. *)
Fixpoint provide_n (E : Env) (n : nat) (s : state)
    : list (result CompanionClient) * state :=
  match n with
  | O => ([], s)
  | S n' =>
      let '(r, s1) := await (provide_client E tt) s in
      let '(rs, s2) := provide_n E n' s1 in
      (r :: rs, s2)
  end.

(** The client [provide_client] returns over the stub [st]. *)
Definition client_of (st : CompanionServiceStub) (self : GrpcClient)
    : CompanionClient :=
  {| cc_stub := st; cc_is_local := true;
     cc_udid := target_udid self; cc_logger := logger self |}.

(** The request [provide_client] makes to the spawner. *)
Definition start_daemon_event (self : GrpcClient) : event :=
  EvStartDaemon (host self) (port self) (force_kill_daemon self).


(** The facade [self0] once the channel [ch] to the daemon is built. *)
Definition connected_to (self0 : GrpcClient) (ch : Channel) : GrpcClient :=
  set_daemon ch {| channel_of := ch |} self0.





(** ** Invariants of the facade object *)

(** The companion side of the facade: either the channel, the stub over it
    and the companion they lead to are all there, or none is. *)
Definition companion_wf (self : GrpcClient) : Prop :=
  match channel self, stub self, companion_info self with
  | Some ch, Some st, Some ci =>
      channel_of st = ch ∧ ch_host ch = ci_host ci ∧ ch_port ch = ci_port ci
  | None, None, None => True
  | _, _, _ => False
  end.

(** The daemon side of the facade: at most one channel, to the address of
    the facade, with the stub over it. *)
Definition daemon_wf (self : GrpcClient) : Prop :=
  match daemon_channel self, daemon_stub self with
  | Some ch, Some st =>
      channel_of st = ch ∧ ch_host ch = host self ∧ ch_port ch = port self
  | None, None => True
  | _, _ => False
  end.

(** Two states of the facade object that differ in the daemon connection
    at most. *)
Definition same_but_daemon (a b : GrpcClient) : Prop :=
  port a = port b ∧ host a = host b ∧ logger a = logger b ∧
  force_kill_daemon a = force_kill_daemon b ∧
  target_udid a = target_udid b ∧
  channel a = channel b ∧ stub a = stub b ∧
  companion_info a = companion_info b.

(** On the facade [self], the computation leaves the object as it is and
    every event it adds is one of [P]. *)
Definition only_emits {A} (self : GrpcClient) (P : event → Prop) (c : M A)
    : Prop :=
  ∀ tr, ∃ rest, snd (c (self, tr)) = (self, tr ++ rest) ∧ Forall P rest.

(** The events of a call routed to the companion over [ch]: the
    call-boundary event, requests and streams on [ch], and operations of an
    open stream. *)
Definition on_channel (ch : Channel) (e : event) : Prop :=
  match e with
  | EvLogCall _ | EvSend _ | EvEnd | EvRecv | EvClose => True
  | EvUnary ch' _ _ | EvStreamOpen ch' _ => ch' = ch
  | EvLogInfo _ _ | EvStartDaemon _ _ _ | EvChannel _ => False
  end.

(** The operations on an open stream. *)
Definition is_stream_op (e : event) : Prop :=
  match e with
  | EvSend _ | EvEnd | EvRecv => True
  | _ => False
  end.

(** What [func_wrapper] makes of an exception. *)
Definition translated (e : exn) : exn :=
  match e with
  | GRPCError _ message => IdbException (ArgMessage message)
  | ProtocolError args | StreamTerminatedError args =>
      IdbException (ArgTuple args)
  | _ => e
  end.

Definition is_transport_exn (e : exn) : bool :=
  match e with
  | GRPCError _ _ | ProtocolError _ | StreamTerminatedError _ => true
  | _ => false
  end.

(** The record [list_apps] builds from an app of the response. *)
Definition installed_app (app : CompanionApp) : InstalledAppInfo :=
  {| bundle_id := app_bundle_id app; name := app_name app;
     architectures := app_architectures app;
     install_type := app_install_type app;
     process_state := {| state_value := app_process_state app |};
     debuggable := app_debuggable app |}.


Definition with_registry (E : Env)
    (registry : provider → list (string * handler)) : Env :=
  {| spawner_fault := spawner_fault E;
     get_companion_info := get_companion_info E;
     transport_fault := transport_fault E;
     list_apps_reply := list_apps_reply E;
     accessibility_info_reply := accessibility_info_reply E;
     is_process_state := is_process_state E;
     generate_tar := generate_tar E;
     client_calls := registry |}.


(** The companion answers [list_apps] with the given apps. *)
Definition with_apps (apps : list CompanionApp) : Env :=
  {| spawner_fault := λ _, None;
     get_companion_info := λ _, Ok local_companion;
     transport_fault := λ _, None;
     list_apps_reply := λ _, apps;
     accessibility_info_reply := λ _, "{}";
     is_process_state := λ v, Z.leb 0 v && Z.leb v 2;
     generate_tar := λ _ _, {| gen_items := []; gen_fault := None |};
     client_calls := λ _, [] |}.

Definition safari : CompanionApp :=
  {| app_bundle_id := "com.apple.mobilesafari"; app_name := "Safari";
     app_architectures := ["arm64"]; app_install_type := "system";
     app_process_state := 2; app_debuggable := false |}.

Definition broken_app : CompanionApp :=
  {| app_bundle_id := "com.example.broken"; app_name := "Broken";
     app_architectures := []; app_install_type := "user";
     app_process_state := 7; app_debuggable := true |}.

(** The spawner fails its first request and no other. *)
Definition spawner_fails_once : Env :=
  {| spawner_fault := λ tr,
       match tr with
       | [EvStartDaemon _ _ _] => Some (OtherError "DaemonUnavailable" [])
       | _ => None
       end;
     get_companion_info := λ _, Ok local_companion;
     transport_fault := λ _, None;
     list_apps_reply := λ _, [];
     accessibility_info_reply := λ _, "{}";
     is_process_state := λ v, Z.leb 0 v && Z.leb v 2;
     generate_tar := λ _ _, {| gen_items := []; gen_fault := None |};
     client_calls := λ _, [] |}.

(** The transport fails the second message of a stream. *)
Definition second_send_fails : Env :=
  {| spawner_fault := λ _, None;
     get_companion_info := λ _, Ok local_companion;
     transport_fault := λ tr,
       match reverse tr with
       | EvSend _ :: EvSend _ :: _ => Some (StreamTerminatedError ["reset"])
       | _ => None
       end;
     list_apps_reply := λ _, [];
     accessibility_info_reply := λ _, "{}";
     is_process_state := λ v, Z.leb 0 v && Z.leb v 2;
     generate_tar := λ _ _, {| gen_items := []; gen_fault := None |};
     client_calls := λ _, [] |}.

(** A registry with a call under the name of an attribute that
    [__init__] assigns after the loop, and the facade built against it. *)
Definition shadowing : Env :=
  with_registry (quiet local_companion [])
    (λ dp, [("stub", ping dp); ("ping", ping dp)]).

Definition shadowing_facade : Facade :=
  {| fields :=
       fresh 9889 "localhost" None false
         (Some (local_companion, companion_channel local_companion));
     calls :=
       delete "companion_info"
         (delete "stub"
            (delete "channel"
               (delete "direct_companion_manager"
                  (<[ "ping" := ping (provide_client shadowing) ]>
                     (<[ "stub" := ping (provide_client shadowing) ]> ∅)))))
  |}.

Definition shadowing_trace : trace :=
  [EvLogInfo "idb_grpc_client" (UsingCompanion local_companion);
   EvChannel (companion_channel local_companion)].

(** ** The spawner's requests and answers *)



(** What the spawner answered to the request of a caller: nothing for a
    caller that has not started; the answer it waits for while it is
    suspended in the spawner; and for a caller that has finished, the
    exception it got, or none if it got its client. *)
Definition outcome (t : task) : option (option exn) :=
  match t with
  | Created => None
  | InSpawner _ o => Some o
  | Finished (Ok _) => Some None
  | Finished (Raise e) => Some (Some e)
  end.




(** * Properties *)

(** ** Running computations *)

Lemma bind_Ok {A B} (c : M A) (f : A → M B) s a s' :
  c s = (Ok a, s') → (c ≫= f) s = f a s'.
Proof. intros H. unfold mbind, M_bind. by rewrite H. Qed.

Lemma bind_Raise {A B} (c : M A) (f : A → M B) s e s' :
  c s = (Raise e, s') → (c ≫= f) s = (Raise e, s').
Proof. intros H. unfold mbind, M_bind. by rewrite H. Qed.

Lemma emit_run e self tr : emit e (self, tr) = (Ok tt, (self, tr ++ [e])).
Proof. reflexivity. Qed.

Lemma await_async_def {A R} (body : A → M R) args s :
  await (async_def body args) s = body args s.
Proof. reflexivity. Qed.

(** ** The wrapper *)

(** The [try] block of [func_wrapper] does its work on what the call of
    [func] itself raises. *)
Lemma func_wrapper_call_time {A R} (func : A → M (coroutine R)) args s e s' :
  func args s = (Raise e, s') →
  func_wrapper func args s =
    match e with
    | GRPCError _ message => (Raise (IdbException (ArgMessage message)), s')
    | ProtocolError a | StreamTerminatedError a =>
        (Raise (IdbException (ArgTuple a)), s')
    | _ => (Raise e, s')
    end.
Proof.
  intros H. unfold func_wrapper, try_except. rewrite H.
  by destruct e.
Qed.

(** The call of an [async def] function raises nothing: it hands back the
    coroutine, and the body runs when [log_call] awaits it, outside the
    [try] block.  A decorated [async def] is its body after the
    call-boundary event. *)
Lemma decorated_async_def {A R} name (body : A → M R) args s :
  await (log_and_handle_exceptions name (async_def body) args) s =
  body args (fst s, snd s ++ [EvLogCall name]).
Proof. reflexivity. Qed.

(** C1, at a failing input.  The facade is built against a companion whose
    transport answers the [list_apps] request with the structured fault
    [GRPCError 14 "unavailable"]: the caller of [list_apps] gets the
    [GRPCError] itself, not an [IdbException] carrying its message. *)
Theorem list_apps_fault_reaches_caller :
  ∃ F tr s',
    GrpcClient_new unavailable 9889 "localhost" (Some "sim-1") None false []
      = (Ok F, tr) ∧
    await (list_apps unavailable tt) (fields F, tr)
      = (Raise (GRPCError 14 (Some "unavailable")), s').
Proof. do 3 eexists. split; reflexivity. Qed.

(** ** [metadata] *)

(** C10: [metadata] is the one-entry map from ["udid"] to the target
    identifier when that is a string other than the empty one, and the
    empty map when it is [None] or the empty string.  It is a function of
    the facade object alone: it has no way to fail or to change it. *)
Theorem metadata_spec (self : GrpcClient) :
  (∀ udid, target_udid self = Some udid → udid ≠ "" →
           metadata self = {[ "udid" := udid ]}) ∧
  (target_udid self = Some "" → metadata self = ∅) ∧
  (target_udid self = None → metadata self = ∅).
Proof.
  unfold metadata. repeat split.
  - intros udid -> Hne. by rewrite decide_False.
  - by intros ->.
  - by intros ->.
Qed.

Lemma metadata_spec_witness :
  metadata (fresh 9889 "localhost" (Some "sim-1") false None)
    = {[ "udid" := "sim-1" ]} ∧
  metadata (fresh 9889 "localhost" (Some "") false None) = ∅ ∧
  metadata (fresh 9889 "localhost" None false None) = ∅.
Proof.
  pose proof (metadata_spec (fresh 9889 "localhost" (Some "sim-1") false None))
    as (H1 & _ & _).
  pose proof (metadata_spec (fresh 9889 "localhost" (Some "") false None))
    as (_ & H2 & _).
  pose proof (metadata_spec (fresh 9889 "localhost" None false None))
    as (_ & _ & H3).
  split; [|split].
  - apply H1; [reflexivity | discriminate].
  - apply H2. reflexivity.
  - apply H3. reflexivity.
Defined.

(** ** Computations extend the trace *)

Create HintDb trace_ext.

Lemma extends_ret {A} (a : A) : extends (mret a).
Proof. intros self tr. exists []. simpl. by rewrite app_nil_r. Qed.

Lemma extends_throw {A} (e : exn) : extends (mthrow (M := M) (A := A) e).
Proof. intros self tr. exists []. simpl. by rewrite app_nil_r. Qed.

Lemma extends_bind {A B} (c : M A) (f : A → M B) :
  extends c → (∀ a, extends (f a)) → extends (c ≫= f).
Proof.
  intros Hc Hf self tr. unfold mbind, M_bind.
  destruct (Hc self tr) as [r1 H1].
  destruct (c (self, tr)) as [[a|e] [self1 tr1]]; simpl in H1; subst tr1.
  - destruct (Hf a self1 (tr ++ r1)) as [r2 H2].
    exists (r1 ++ r2). by rewrite H2, app_assoc.
  - by exists r1.
Qed.

Lemma extends_emit e : extends (emit e).
Proof. intros self tr. by exists [e]. Qed.

Lemma extends_get_self : extends get_self.
Proof. intros self tr. exists []. simpl. by rewrite app_nil_r. Qed.

Lemma extends_put_self x : extends (put_self x).
Proof. intros self tr. exists []. simpl. by rewrite app_nil_r. Qed.

Lemma extends_get_trace : extends get_trace.
Proof. intros self tr. exists []. simpl. by rewrite app_nil_r. Qed.

Lemma extends_lift_result {A} (r : result A) : extends (lift_result r).
Proof. intros self tr. exists []. simpl. by rewrite app_nil_r. Qed.

Lemma extends_lift_fault o : extends (lift_fault o).
Proof. destruct o; [apply extends_throw | apply extends_ret]. Qed.

Lemma extends_try_finally {A} (c : M A) (f : M unit) :
  extends c → extends f → extends (try_finally c f).
Proof.
  intros Hc Hf self tr. unfold try_finally.
  destruct (Hc self tr) as [r1 H1].
  destruct (c (self, tr)) as [r [self1 tr1]]; simpl in H1; subst tr1.
  destruct (Hf self1 (tr ++ r1)) as [r2 H2].
  destruct (f (self1, tr ++ r1)) as [[[]|e] [self2 tr2]];
    simpl in H2; subst tr2; exists (r1 ++ r2); simpl; by rewrite app_assoc.
Qed.

Lemma extends_mapM {A B} (f : A → M B) (l : list A) :
  (∀ a, extends (f a)) → extends (mapM f l).
Proof.
  intros Hf. induction l as [|a l IH]; simpl.
  - apply extends_ret.
  - apply extends_bind; [apply Hf|]. intros b.
    apply extends_bind; [apply IH|]. intros k. apply extends_ret.
Qed.

#[global] Hint Resolve extends_ret extends_throw extends_emit extends_get_self
  extends_put_self extends_get_trace extends_lift_result extends_lift_fault
  : trace_ext.

Ltac extends_step :=
  first
    [ solve [auto with trace_ext]
    | apply extends_mapM; intros ?
    | apply extends_try_finally
    | apply extends_bind; [|intros ?] ].

Ltac solve_extends := repeat extends_step.

Lemma extends_transport E e : extends (transport E e).
Proof. unfold transport. solve_extends. Qed.

#[global] Hint Resolve extends_transport : trace_ext.

Lemma extends_getattr_stub attr : extends (getattr_stub attr).
Proof.
  unfold getattr_stub. apply extends_bind; [auto with trace_ext|].
  intros self. destruct (stub self); auto with trace_ext.
Qed.

Lemma extends_getattr_companion_info : extends getattr_companion_info.
Proof.
  unfold getattr_companion_info. apply extends_bind; [auto with trace_ext|].
  intros self. destruct (companion_info self); auto with trace_ext.
Qed.

#[global] Hint Resolve extends_getattr_stub extends_getattr_companion_info
  : trace_ext.

Lemma extends_InstalledAppInfo_of E app : extends (InstalledAppInfo_of E app).
Proof.
  unfold InstalledAppInfo_of, AppProcessState_of.
  apply extends_bind; [|auto with trace_ext].
  destruct (is_process_state E _); auto with trace_ext.
Qed.

Lemma extends_APPROVE_MAP_getitem p : extends (APPROVE_MAP_getitem p).
Proof.
  unfold APPROVE_MAP_getitem. destruct (APPROVE_MAP !! p); auto with trace_ext.
Qed.

#[global] Hint Resolve extends_InstalledAppInfo_of extends_APPROVE_MAP_getitem
  : trace_ext.

Lemma extends_list_apps_body E u : extends (list_apps_body E u).
Proof. unfold list_apps_body, unary. solve_extends. Qed.

Lemma extends_accessibility_info_body E point :
  extends (accessibility_info_body E point).
Proof. unfold accessibility_info_body, unary. solve_extends. Qed.

Lemma extends_add_media_body E paths : extends (add_media_body E paths).
Proof.
  unfold add_media_body, async_with_open.
  apply extends_bind; [auto with trace_ext|]. intros st.
  apply extends_bind; [auto with trace_ext|]. intros _.
  apply extends_try_finally; [|auto with trace_ext].
  apply extends_bind; [auto with trace_ext|]. intros ci.
  destruct (is_local ci);
    unfold drain_to_stream, send_message, stream_end, recv_message;
    solve_extends.
Qed.

Lemma extends_approve_body E args : extends (approve_body E args).
Proof.
  destruct args as [bundle permissions].
  unfold approve_body, unary. solve_extends.
Qed.

(** ** Construction, case by case *)

(** [__init__] in direct style: what it returns for each answer of the
    registry loop and of the resolver. *)
Lemma GrpcClient_new_cases E p h u l k tr :
  GrpcClient_new E p h u l k tr =
    let lg := default "idb_grpc_client" l in
    let self := {| port := p; host := h; logger := lg;
                   force_kill_daemon := k; target_udid := u;
                   daemon_channel := None; daemon_stub := None;
                   channel := None; stub := None;
                   companion_info := None |} in
    match install_calls (client_calls E (provide_client E)) ∅ with
    | Raise e => (Raise e, tr)
    | Ok d =>
        let d := delete "stub"
                   (delete "channel" (delete "direct_companion_manager" d)) in
        match get_companion_info E u with
        | Ok ci =>
            let tr1 := tr ++ [EvLogInfo lg (UsingCompanion ci)] in
            let ch := {| ch_host := ci_host ci; ch_port := ci_port ci;
                         ch_id := length tr1 |} in
            (Ok {| fields :=
                     set_stub {| channel_of := ch |}
                       (set_channel ch (set_companion_info ci self));
                   calls := delete "companion_info" d |},
             tr1 ++ [EvChannel ch])
        | Raise (IdbException a) =>
            (Ok {| fields := self; calls := d |},
             tr ++ [EvLogInfo lg (LoggedException (IdbException a))])
        | Raise e => (Raise e, tr)
        end
    end.
Proof.
  unfold GrpcClient_new, GrpcClient__init__, try_except, lift_result, mbind, M_bind.
  simpl.
  destruct (install_calls _ _) as [d|e]; [|reflexivity].
  destruct (get_companion_info E u) as [ci|[]]; reflexivity.
Qed.

Lemma install_calls_from l : ∀ d d' n f,
  install_calls l d = Ok d' → d' !! n = Some f →
  (n, f) ∈ l ∨ d !! n = Some f.
Proof.
  induction l as [|[m g] l IH]; intros d d' n f Hi Hl; simpl in Hi.
  - right. congruence.
  - unfold setattr_call in Hi. case_decide; [discriminate|].
    destruct (IH _ _ _ _ Hi Hl) as [Hin|Hd].
    + left. apply elem_of_cons. by right.
    + destruct (decide (m = n)) as [->|Hne].
      * rewrite lookup_insert_eq in Hd. left. apply elem_of_cons. left.
        congruence.
      * rewrite lookup_insert_ne in Hd by done. by right.
Qed.

Lemma installed_from_registry E p h u l k tr F tr' n f :
  GrpcClient_new E p h u l k tr = (Ok F, tr') →
  calls F !! n = Some f →
  (n, f) ∈ client_calls E (provide_client E).
Proof.
  rewrite GrpcClient_new_cases. cbv zeta.
  destruct (install_calls _ _) as [d|e] eqn:Hi; [|discriminate].
  intros Hnew Hl.
  assert (d !! n = Some f) as Hd.
  { destruct (get_companion_info E u) as [ci|[]];
      try discriminate; inversion Hnew; subst F; simpl in Hl;
      repeat (apply lookup_delete_Some in Hl as [_ Hl]); done. }
  destruct (install_calls_from _ _ _ _ _ Hi Hd) as [?|Hempty]; [done|].
  by rewrite lookup_empty in Hempty.
Qed.

Lemma unresolved_new :
  GrpcClient_new unresolved 9889 "localhost" (Some "gone") None false []
    = (Ok unresolved_facade, unresolved_trace).
Proof. rewrite GrpcClient_new_cases. reflexivity. Qed.

Lemma unresolved_ping :
  calls unresolved_facade !! "ping" = Some (ping (provide_client unresolved)).
Proof.
  unfold unresolved_facade. simpl.
  repeat rewrite lookup_delete_ne by done. apply lookup_insert_eq.
Qed.

(** ** Call-boundary logging *)

Lemma decorated_logs {A R} name (body : A → M R) args :
  extends (body args) →
  logs_before_invocation name
    (await (log_and_handle_exceptions name (async_def body) args)).
Proof.
  intros Hext self tr. rewrite decorated_async_def. simpl.
  destruct (Hext self (tr ++ [EvLogCall name])) as [rest Hrest].
  exists rest. rewrite Hrest. by rewrite <- app_assoc.
Qed.

(** C2, counterexample: the registry call [ping] is installed as the
    registry built it, and the first event of an invocation is the request
    to the spawner, not a call-boundary event. *)
Lemma installed_call_without_log : ¬ every_installed_call_logs.
Proof.
  intros H.
  destruct (H unresolved 9889 "localhost" (Some "gone") None false []
              unresolved_facade unresolved_trace
              "ping" (ping (provide_client unresolved)) []
              unresolved_new unresolved_ping
              (fields unresolved_facade) [])
    as [rest Hrest].
  discriminate Hrest.
Qed.

(** C2, as amended: the methods the facade declares ([list_apps],
    [accessibility_info], [add_media], [approve]) pass through the wrapper,
    which logs the call-boundary event of the operation before the method
    body runs; a call of the registry is installed as the registry's
    factory returned it for [provide_client], with no wrapper of the
    facade's around it. *)
Theorem declared_methods_log_registry_calls_as_built E :
  logs_before_invocation "list_apps" (await (list_apps E tt)) ∧
  (∀ point, logs_before_invocation "accessibility_info"
              (await (accessibility_info E point))) ∧
  (∀ paths, logs_before_invocation "add_media" (await (add_media E paths))) ∧
  (∀ args, logs_before_invocation "approve" (await (approve E args))) ∧
  (∀ p h u l k tr F tr' n f,
     GrpcClient_new E p h u l k tr = (Ok F, tr') →
     calls F !! n = Some f →
     (n, f) ∈ client_calls E (provide_client E)).
Proof.
  split; [|split; [|split; [|split]]].
  - apply decorated_logs, extends_list_apps_body.
  - intros point. apply decorated_logs, extends_accessibility_info_body.
  - intros paths. apply decorated_logs, extends_add_media_body.
  - intros args. apply decorated_logs, extends_approve_body.
  - intros p h u l k tr F tr' n f. apply installed_from_registry.
Qed.

Lemma declared_methods_log_registry_calls_as_built_witness :
  ("ping", ping (provide_client unresolved))
    ∈ client_calls unresolved (provide_client unresolved).
Proof.
  destruct (declared_methods_log_registry_calls_as_built unresolved)
    as (_ & _ & _ & _ & H).
  exact (H 9889 "localhost" (Some "gone") None false []
           unresolved_facade unresolved_trace
           "ping" (ping (provide_client unresolved))
           unresolved_new unresolved_ping).
Defined.

(** ** The upload *)

Ltac run :=
  repeat (unfold mbind, M_bind, mret, M_ret, mthrow, M_throw, emit, get_self,
            get_trace, put_self, lift_result, await, async_def; simpl).

Lemma transport_ok E e self tr :
  transport_fault E (tr ++ [e]) = None →
  transport E e (self, tr) = (Ok tt, (self, tr ++ [e])).
Proof. intros H. unfold transport. run. by rewrite H. Qed.

Lemma transport_fails E e self tr x :
  transport_fault E (tr ++ [e]) = Some x →
  transport E e (self, tr) = (Raise x, (self, tr ++ [e])).
Proof. intros H. unfold transport. run. by rewrite H. Qed.

(** On a transport that raises nothing, a loop of [send_message] puts one
    message per item on the stream, in the order of the items. *)
Lemma mapM_send_ok {A} E (f : A → request) l : ∀ self tr,
  (∀ rest, transport_fault E (tr ++ rest) = None) →
  mapM (λ a, send_message E (f a)) l (self, tr)
    = (Ok (const tt <$> l), (self, tr ++ ((λ a, EvSend (f a)) <$> l))).
Proof.
  induction l as [|a l IH]; intros self tr Hok; simpl.
  - by rewrite app_nil_r.
  - unfold send_message at 1.
    erewrite bind_Ok; [|apply transport_ok, Hok].
    erewrite bind_Ok; [|apply IH].
    + run. by rewrite <- app_assoc.
    + intros rest. rewrite <- app_assoc. apply Hok.
Qed.

(** C3: against a local companion, and with a transport that raises
    nothing during the call, [add_media] opens the stream, sends one
    message per path, each carrying the path itself, in list order, then
    signals the end of input, then reads one message, and closes the
    stream; it returns normally. *)
Theorem add_media_local E self tr st ci file_paths :
  stub self = Some st →
  companion_info self = Some ci →
  is_local ci = true →
  (∀ rest, transport_fault E (tr ++ EvLogCall "add_media" :: rest) = None) →
  await (add_media E file_paths) (self, tr) =
    (Ok tt,
     (self,
      tr ++ [EvLogCall "add_media"; EvStreamOpen (channel_of st) "add_media"]
         ++ ((λ p, EvSend (AddMediaRequest (Payload_file_path p)))
               <$> file_paths)
         ++ [EvEnd; EvRecv; EvClose])).
Proof.
  intros Hst Hci Hloc Hok. unfold add_media. rewrite decorated_async_def.
  unfold add_media_body, getattr_stub, async_with_open.
  erewrite bind_Ok; [|run; rewrite Hst; reflexivity].
  erewrite bind_Ok; [|apply transport_ok; rewrite <- app_assoc; apply Hok].
  unfold try_finally, getattr_companion_info.
  erewrite bind_Ok; [|run; rewrite Hci; reflexivity].
  rewrite Hloc.
  erewrite bind_Ok;
    [|apply mapM_send_ok; intros rest; rewrite <- !app_assoc; apply Hok].
  unfold stream_end, recv_message.
  erewrite bind_Ok; [|apply transport_ok; rewrite <- !app_assoc; apply Hok].
  rewrite transport_ok by (rewrite <- !app_assoc; apply Hok).
  run. by rewrite <- !app_assoc.
Qed.

Lemma add_media_local_witness :
  await (add_media (quiet local_companion []) ["a.png"; "b.png"; "c.mov"])
        (resolved local_companion, [])
  = (Ok tt,
     (resolved local_companion,
      [EvLogCall "add_media";
       EvStreamOpen (companion_channel local_companion) "add_media";
       EvSend (AddMediaRequest (Payload_file_path "a.png"));
       EvSend (AddMediaRequest (Payload_file_path "b.png"));
       EvSend (AddMediaRequest (Payload_file_path "c.mov"));
       EvEnd; EvRecv; EvClose])).
Proof.
  exact (add_media_local (quiet local_companion [])
           (resolved local_companion) []
           {| channel_of := companion_channel local_companion |}
           local_companion ["a.png"; "b.png"; "c.mov"]
           eq_refl eq_refl eq_refl (λ _, eq_refl)).
Defined.

(** C4: against a companion that is not local, and with a transport that
    raises nothing during the call, [add_media] sends one data message per
    chunk of the archive generator, in the generator's order, each chunk
    once, then signals the end of input and reads one message. *)
Theorem add_media_remote E self tr st ci file_paths chunks :
  stub self = Some st →
  companion_info self = Some ci →
  is_local ci = false →
  generate_tar E file_paths true
    = {| gen_items := chunks; gen_fault := None |} →
  (∀ rest, transport_fault E (tr ++ EvLogCall "add_media" :: rest) = None) →
  await (add_media E file_paths) (self, tr) =
    (Ok tt,
     (self,
      tr ++ [EvLogCall "add_media"; EvStreamOpen (channel_of st) "add_media"]
         ++ ((λ chunk, EvSend (AddMediaRequest (Payload_data chunk)))
               <$> chunks)
         ++ [EvEnd; EvRecv; EvClose])).
Proof.
  intros Hst Hci Hloc Htar Hok. unfold add_media. rewrite decorated_async_def.
  unfold add_media_body, getattr_stub, async_with_open.
  erewrite bind_Ok; [|run; rewrite Hst; reflexivity].
  erewrite bind_Ok; [|apply transport_ok; rewrite <- app_assoc; apply Hok].
  unfold try_finally, getattr_companion_info.
  erewrite bind_Ok; [|run; rewrite Hci; reflexivity].
  rewrite Hloc, Htar. unfold drain_to_stream, stream_map. simpl.
  erewrite bind_Ok;
    [|apply (mapM_send_ok E id); intros rest; rewrite <- !app_assoc;
      apply Hok].
  erewrite bind_Ok; [|reflexivity].
  unfold stream_end, recv_message.
  erewrite bind_Ok; [|apply transport_ok; rewrite <- !app_assoc; apply Hok].
  rewrite transport_ok by (rewrite <- !app_assoc; apply Hok).
  run. rewrite <- list_fmap_compose. by rewrite <- !app_assoc.
Qed.

Lemma add_media_remote_witness :
  await (add_media (quiet remote_companion [[Byte.x1f; Byte.x8b]; [Byte.x08]])
                   ["a.png"; "b.png"])
        (resolved remote_companion, [])
  = (Ok tt,
     (resolved remote_companion,
      [EvLogCall "add_media";
       EvStreamOpen (companion_channel remote_companion) "add_media";
       EvSend (AddMediaRequest (Payload_data [Byte.x1f; Byte.x8b]));
       EvSend (AddMediaRequest (Payload_data [Byte.x08]));
       EvEnd; EvRecv; EvClose])).
Proof.
  exact (add_media_remote
           (quiet remote_companion [[Byte.x1f; Byte.x8b]; [Byte.x08]])
           (resolved remote_companion) []
           {| channel_of := companion_channel remote_companion |}
           remote_companion ["a.png"; "b.png"]
           [[Byte.x1f; Byte.x8b]; [Byte.x08]]
           eq_refl eq_refl eq_refl eq_refl (λ _, eq_refl)).
Defined.

(** ** Calls on a facade without a companion, and [approve] *)

Lemma APPROVE_MAP_lookup p :
  APPROVE_MAP !! p =
    if decide (p = "photos") then Some PHOTOS
    else if decide (p = "camera") then Some CAMERA
    else if decide (p = "contacts") then Some CONTACTS
    else None.
Proof.
  unfold APPROVE_MAP.
  repeat (case_decide; [subst; by simplify_map_eq|]).
  by simplify_map_eq.
Qed.

(** The comprehension over the permissions stops at the first name that is
    no key of [APPROVE_MAP], with the [KeyError] of that name, and touches
    neither the facade nor the trace. *)
Lemma mapM_getitem_unknown permissions s p0 :
  p0 ∈ permissions → APPROVE_MAP !! p0 = None →
  ∃ p, p ∈ permissions ∧ APPROVE_MAP !! p = None ∧
       mapM APPROVE_MAP_getitem permissions s = (Raise (KeyError p), s).
Proof.
  induction permissions as [|q l IH]; intros Hin Hnone.
  - by apply elem_of_nil in Hin.
  - simpl. destruct (APPROVE_MAP !! q) as [v|] eqn:Hq.
    + assert (p0 ∈ l) as Hl.
      { apply elem_of_cons in Hin as [->|]; [congruence|done]. }
      destruct (IH Hl Hnone) as (p & Hp & Hpn & Hrun).
      exists p. split; [apply elem_of_cons; by right|]. split; [done|].
      erewrite bind_Ok;
        [|unfold APPROVE_MAP_getitem; rewrite Hq; reflexivity].
      erewrite bind_Raise; [reflexivity|apply Hrun].
    + exists q. split; [apply elem_of_cons; by left|]. split; [done|].
      erewrite bind_Raise; [reflexivity|].
      unfold APPROVE_MAP_getitem. by rewrite Hq.
Qed.

Lemma getattr_stub_None attr self tr :
  stub self = None →
  getattr_stub attr (self, tr) =
    (Raise (AttributeError
              ("'NoneType' object has no attribute '" +:+ attr +:+ "'")),
     (self, tr)).
Proof. intros H. unfold getattr_stub. run. by rewrite H. Qed.

Lemma getattr_stub_Some attr self tr st :
  stub self = Some st → getattr_stub attr (self, tr) = (Ok st, (self, tr)).
Proof. intros H. unfold getattr_stub. run. by rewrite H. Qed.

(** C8, counterexample: [approve] with the permissions [photos] and
    [microphone], on a facade with a resolved companion, raises the
    [KeyError] of [microphone]. *)
Lemma approve_microphone_KeyError : ¬ unknown_permission_is_domain_error.
Proof.
  intros H.
  destruct (H (quiet local_companion []) (resolved local_companion) []
              "com.example.app" ["photos"; "microphone"] "microphone")
    as (a & s' & Hrun & _).
  - apply elem_of_cons. right. apply elem_of_cons. by left.
  - by rewrite APPROVE_MAP_lookup.
  - unfold approve in Hrun. rewrite decorated_async_def in Hrun.
    unfold approve_body in Hrun.
    erewrite bind_Ok in Hrun; [|by apply getattr_stub_Some].
    destruct (mapM_getitem_unknown ["photos"; "microphone"]
                (resolved local_companion, [] ++ [EvLogCall "approve"])
                "microphone")
      as (p & _ & _ & Hmap).
    + apply elem_of_cons. right. apply elem_of_cons. by left.
    + by rewrite APPROVE_MAP_lookup.
    + erewrite bind_Raise in Hrun; [|apply Hmap]. discriminate Hrun.
Qed.

(** C8, as amended: when the permission set holds a name that is no key of
    [APPROVE_MAP], [approve] fails before anything reaches the network: the
    trace gains the call-boundary event and nothing else, so no message is
    sent and the remote [approve] is not invoked.  The failure is not the
    domain exception: on a facade with a companion stub it is the
    [KeyError] of an unrecognized name of the set. *)
Theorem approve_unknown_permission E self tr bundle permissions p0 :
  p0 ∈ permissions → APPROVE_MAP !! p0 = None →
  ∃ e, await (approve E (bundle, permissions)) (self, tr)
         = (Raise e, (self, tr ++ [EvLogCall "approve"])) ∧
       is_IdbException e = false ∧
       (∀ st, stub self = Some st →
              ∃ p, p ∈ permissions ∧ APPROVE_MAP !! p = None ∧
                   e = KeyError p).
Proof.
  intros Hin Hnone. unfold approve. rewrite decorated_async_def.
  unfold approve_body. simpl.
  destruct (stub self) as [st|] eqn:Hst.
  - destruct (mapM_getitem_unknown permissions
                (self, tr ++ [EvLogCall "approve"]) p0 Hin Hnone)
      as (p & Hp & Hpn & Hmap).
    exists (KeyError p). split; [|split; [done|]].
    + erewrite bind_Ok; [|by apply getattr_stub_Some].
      erewrite bind_Raise; [reflexivity|apply Hmap].
    + intros _ _. by exists p.
  - eexists. split; [|split; [|done]].
    + erewrite bind_Raise; [reflexivity|by apply getattr_stub_None].
    + reflexivity.
Qed.

Lemma approve_unknown_permission_witness :
  ∃ e, await (approve (quiet local_companion [])
                ("com.example.app", ["photos"; "microphone"]))
             (resolved local_companion, [])
         = (Raise e, (resolved local_companion, [EvLogCall "approve"])) ∧
       is_IdbException e = false ∧
       (∀ st, stub (resolved local_companion) = Some st →
              ∃ p, p ∈ ["photos"; "microphone"] ∧ APPROVE_MAP !! p = None ∧
                   e = KeyError p).
Proof.
  apply (approve_unknown_permission (quiet local_companion [])
           (resolved local_companion) [] "com.example.app"
           ["photos"; "microphone"] "microphone").
  - apply elem_of_cons. right. apply elem_of_cons. by left.
  - by rewrite APPROVE_MAP_lookup.
Defined.

(** A resolution that fails with the domain exception leaves the facade
    without a companion stub. *)
Lemma unresolved_stub_None E p h u l k tr a F tr' :
  get_companion_info E u = Raise (IdbException a) →
  GrpcClient_new E p h u l k tr = (Ok F, tr') →
  stub (fields F) = None ∧ companion_info (fields F) = None.
Proof.
  intros Hres. rewrite GrpcClient_new_cases. cbv zeta. rewrite Hres.
  destruct (install_calls _ _); [|discriminate].
  intros Hnew. injection Hnew as <- _. by split.
Qed.

(** C7, counterexample: on the facade built against a resolver that knows
    no companion, [list_apps] raises an [AttributeError]. *)
Lemma list_apps_unresolved_AttributeError :
  ¬ direct_call_fails_with_domain_error.
Proof.
  intros H.
  destruct (H unresolved 9889 "localhost" (Some "gone") None false [] _
              unresolved_facade unresolved_trace eq_refl unresolved_new
              unresolved_trace)
    as (x & s' & Hrun).
  discriminate Hrun.
Qed.

(** C7, as amended: on a facade whose companion resolution failed at
    construction (its stub is [None]), each of the direct companion calls
    [list_apps], [accessibility_info], [add_media] and [approve] fails at
    the attribute lookup on the missing stub, with an [AttributeError]
    (not the domain exception) that reaches the caller as it is, after the
    call-boundary event and before anything is put on the network. *)
Theorem direct_calls_without_companion E p h u l k tr a F tr' :
  get_companion_info E u = Raise (IdbException a) →
  GrpcClient_new E p h u l k tr = (Ok F, tr') →
  stub (fields F) = None ∧
  ∀ self tr2, stub self = None →
    await (list_apps E tt) (self, tr2)
      = (Raise (no_attribute "list_apps"),
         (self, tr2 ++ [EvLogCall "list_apps"])) ∧
    (∀ point, await (accessibility_info E point) (self, tr2)
      = (Raise (no_attribute "accessibility_info"),
         (self, tr2 ++ [EvLogCall "accessibility_info"]))) ∧
    (∀ paths, await (add_media E paths) (self, tr2)
      = (Raise (no_attribute "add_media"),
         (self, tr2 ++ [EvLogCall "add_media"]))) ∧
    (∀ args, await (approve E args) (self, tr2)
      = (Raise (no_attribute "approve"),
         (self, tr2 ++ [EvLogCall "approve"]))).
Proof.
  intros Hres Hnew.
  split; [by destruct (unresolved_stub_None _ _ _ _ _ _ _ _ _ _ Hres Hnew)|].
  intros self tr2 Hst. repeat split.
  - unfold list_apps. rewrite decorated_async_def. unfold list_apps_body.
    erewrite bind_Raise; [reflexivity|by apply getattr_stub_None].
  - intros point. unfold accessibility_info. rewrite decorated_async_def.
    unfold accessibility_info_body.
    erewrite bind_Raise; [reflexivity|by apply getattr_stub_None].
  - intros paths. unfold add_media. rewrite decorated_async_def.
    unfold add_media_body.
    erewrite bind_Raise; [reflexivity|by apply getattr_stub_None].
  - intros [bundle permissions]. unfold approve. rewrite decorated_async_def.
    unfold approve_body.
    erewrite bind_Raise; [reflexivity|by apply getattr_stub_None].
Qed.

Lemma direct_calls_without_companion_witness :
  await (list_apps unresolved tt) (fields unresolved_facade, unresolved_trace)
    = (Raise (no_attribute "list_apps"),
       (fields unresolved_facade,
        unresolved_trace ++ [EvLogCall "list_apps"])).
Proof.
  destruct (direct_calls_without_companion unresolved 9889 "localhost"
              (Some "gone") None false [] _ unresolved_facade
              unresolved_trace eq_refl unresolved_new) as [Hst H].
  destruct (H (fields unresolved_facade) unresolved_trace Hst) as [H1 _].
  exact H1.
Defined.

(** ** Construction with an unresolved companion *)



Lemma provide_client_run E self tr :
  await (provide_client E tt) (self, tr) =
    let ev := EvStartDaemon (host self) (port self)
                            (force_kill_daemon self) in
    match spawner_fault E (tr ++ [ev]) with
    | Some e => (Raise e, (self, tr ++ [ev]))
    | None => provide_client_resume (self, tr ++ [ev])
    end.
Proof.
  unfold provide_client, start_daemon_if_needed. run.
  by destruct (spawner_fault E _).
Qed.

(** With the daemon connection not yet made, [provide_client] builds the
    channel to the daemon address and the stub, and keeps both. *)
Lemma provide_client_resume_first self tr :
  daemon_channel self = None ∨ daemon_stub self = None →
  provide_client_resume (self, tr) =
    let ch := {| ch_host := host self; ch_port := port self;
                 ch_id := length tr |} in
    let st := {| channel_of := ch |} in
    (Ok {| cc_stub := st; cc_is_local := true;
           cc_udid := target_udid self; cc_logger := logger self |},
     (set_daemon ch st self, tr ++ [EvChannel ch])).
Proof.
  intros H. unfold provide_client_resume, Channel_new. run.
  destruct (daemon_channel self), (daemon_stub self);
    try reflexivity. by destruct H.
Qed.

(** With the daemon connection made, [provide_client] hands out the stub
    it kept. *)
Lemma provide_client_resume_cached self tr ch st :
  daemon_channel self = Some ch → daemon_stub self = Some st →
  provide_client_resume (self, tr) =
    (Ok {| cc_stub := st; cc_is_local := true;
           cc_udid := target_udid self; cc_logger := logger self |},
     (self, tr)).
Proof.
  intros Hch Hst. unfold provide_client_resume. run.
  by rewrite Hch, Hst.
Qed.



(** ** The daemon connection is made once *)


(** On a facade that holds the connection, an invocation asks the spawner
    and does nothing else: if the spawner raises, that is the result, and
    otherwise the result is the client over the stub the facade holds. *)
Lemma provide_client_again E self tr ch st :
  daemon_channel self = Some ch → daemon_stub self = Some st →
  await (provide_client E tt) (self, tr) =
    (match spawner_fault E (tr ++ [start_daemon_event self]) with
     | Some e => Raise e
     | None => Ok (client_of st self)
     end,
     (self, tr ++ [start_daemon_event self])).
Proof.
  intros Hch Hst. rewrite provide_client_run. cbv zeta.
  fold (start_daemon_event self).
  destruct (spawner_fault E _); [done|].
  by rewrite (provide_client_resume_cached _ _ ch st).
Qed.









(** ** First-time callers under the event loop *)

(** With a spawner that never suspends its caller, one step of a task is
    one invocation of [provide_client]. *)
Lemma step_task_is_provide_client E s :
  step_task E (λ _, O) Created s =
    let '(r, s') := await (provide_client E tt) s in (Finished r, s').
Proof.
  destruct s as [self tr]. rewrite provide_client_run. simpl.
  destruct (spawner_fault E _); [done|].
  by destruct (provide_client_resume _).
Qed.






Section SingleFlight.

Variable E : Env.
Variable suspensions : trace → nat.

(** The facade as the callers find it, with no daemon connection, and the
    trace up to then. *)
Variable self0 : GrpcClient.
Variable tr0 : trace.
Hypothesis first_time : daemon_channel self0 = None.








End SingleFlight.




(** * Further properties of the facade *)

(** ** The wrapper on what a call raises *)

(** X1: an exception that the call of the decorated function itself raises
    (not one raised later, inside a coroutine it returned) reaches the
    caller translated: a [GRPCError] as the domain exception with its
    message, a [ProtocolError] or [StreamTerminatedError] as the domain
    exception with its arguments, anything else as it is.  What comes out
    is never one of the three transport exceptions, and the changes made
    before the exception are kept. *)
Theorem decorator_translates_call_time_exceptions {A R} name
    (func : A → M (coroutine R)) args self tr e s1 :
  func args (self, tr ++ [EvLogCall name]) = (Raise e, s1) →
  await (log_and_handle_exceptions name func args) (self, tr)
    = (Raise (translated e), s1) ∧
  is_transport_exn (translated e) = false.
Proof.
  intros Hcall. split; [|by destruct e].
  unfold log_and_handle_exceptions, log_call, func_wrapper, try_except.
  run. rewrite Hcall. by destruct e.
Qed.

Lemma decorator_translates_call_time_exceptions_witness :
  await (log_and_handle_exceptions "probe"
           (λ _ : unit,
              mthrow (M := M) (A := coroutine unit)
                (GRPCError 14 (Some "unavailable")))
           tt)
        (resolved local_companion, [])
    = (Raise (translated (GRPCError 14 (Some "unavailable"))),
       (resolved local_companion, [EvLogCall "probe"])) ∧
  is_transport_exn (translated (GRPCError 14 (Some "unavailable"))) = false.
Proof.
  apply (decorator_translates_call_time_exceptions "probe"
           (λ _ : unit,
              mthrow (M := M) (A := coroutine unit)
                (GRPCError 14 (Some "unavailable")))
           tt (resolved local_companion) []).
  reflexivity.
Defined.

(** ** Construction *)











(** X5: whatever the resolver answers, and for a registry whose names are
    none of the data attributes, a facade that construction returns has no
    daemon connection and a companion side that is whole or absent, keeps
    the port, host, identifier and flag it was given, and construction has
    asked nothing of the spawner and built at most one channel. *)
Theorem construction_invariant E p h u l k tr F tr' :
  Forall (λ n, n ∉ data_attributes) (client_calls E (provide_client E)).*1 →
  GrpcClient_new E p h u l k tr = (Ok F, tr') →
  daemon_channel (fields F) = None ∧ daemon_stub (fields F) = None ∧
  companion_wf (fields F) ∧
  port (fields F) = p ∧ host (fields F) = h ∧
  target_udid (fields F) = u ∧ force_kill_daemon (fields F) = k ∧
  ∃ new, tr' = tr ++ new ∧
         filter is_start_daemon new = [] ∧
         (length (filter is_dial new) ≤ 1)%nat.
Proof.
  intros _. rewrite GrpcClient_new_cases. cbv zeta.
  destruct (install_calls _ _) as [d|e]; [|discriminate].
  destruct (get_companion_info E u) as [ci|[]]; try discriminate;
    intros Hnew; injection Hnew as <- <-; simpl.
  - repeat split; try done.
    eexists. split; [by rewrite <- app_assoc|]. split; [done|].
    simpl. lia.
  - repeat split; try done.
    eexists. split; [done|]. split; [done|]. simpl. lia.
Qed.

Lemma construction_invariant_witness :
  daemon_channel (fields unresolved_facade) = None ∧
  daemon_stub (fields unresolved_facade) = None ∧
  companion_wf (fields unresolved_facade) ∧
  port (fields unresolved_facade) = 9889 ∧
  host (fields unresolved_facade) = "localhost" ∧
  target_udid (fields unresolved_facade) = Some "gone" ∧
  force_kill_daemon (fields unresolved_facade) = false ∧
  ∃ new, unresolved_trace = [] ++ new ∧
         filter is_start_daemon new = [] ∧
         (length (filter is_dial new) ≤ 1)%nat.
Proof.
  apply (construction_invariant unresolved 9889 "localhost" (Some "gone")
           None false [] unresolved_facade unresolved_trace).
  - unfold data_attributes. simpl. constructor; [|constructor].
    rewrite !elem_of_cons, elem_of_nil. intros H.
    repeat (destruct H as [H|H]; [discriminate H|]). exact H.
  - exact unresolved_new.
Defined.

(** ** The daemon provider *)

(** X6: on a facade whose daemon channel or daemon stub is missing, and
    with a spawner that raises nothing, [provide_client] asks the spawner
    once, builds one channel to the host and port of the facade, keeps the
    channel and the stub over it, and returns a client that is marked
    local and carries the target identifier, whatever the locality of the
    companion. *)
Theorem provide_client_first E self tr :
  daemon_channel self = None ∨ daemon_stub self = None →
  spawner_fault E (tr ++ [start_daemon_event self]) = None →
  let ch := {| ch_host := host self; ch_port := port self;
               ch_id := S (length tr) |} in
  await (provide_client E tt) (self, tr)
    = (Ok (client_of {| channel_of := ch |} self),
       (connected_to self ch,
        tr ++ [start_daemon_event self; EvChannel ch])) ∧
  daemon_wf (connected_to self ch).
Proof.
  intros Hnone Hsp ch. split; [|done].
  rewrite provide_client_run. cbv zeta. fold (start_daemon_event self).
  rewrite Hsp, provide_client_resume_first by done. cbv zeta.
  rewrite length_app, <- app_assoc. simpl.
  by replace (length tr + 1)%nat with (S (length tr)) by lia.
Qed.

Lemma provide_client_first_witness :
  await (provide_client (quiet remote_companion []) tt)
        (resolved remote_companion, [])
    = (Ok (client_of
             {| channel_of :=
                  {| ch_host := "localhost"; ch_port := 9889; ch_id := 1 |} |}
             (resolved remote_companion)),
       (connected_to (resolved remote_companion)
          {| ch_host := "localhost"; ch_port := 9889; ch_id := 1 |},
        [start_daemon_event (resolved remote_companion);
         EvChannel {| ch_host := "localhost"; ch_port := 9889;
                      ch_id := 1 |}])).
Proof.
  destruct (provide_client_first (quiet remote_companion [])
              (resolved remote_companion) [] (or_introl eq_refl) eq_refl)
    as [H _].
  exact H.
Defined.

(** X7: when the spawner raises, [provide_client] raises the same
    exception, builds no channel and keeps nothing; the next invocation
    asks the spawner again and, if that one succeeds, makes the
    connection. *)
Theorem provide_client_retries_after_failure E self tr e :
  daemon_channel self = None →
  spawner_fault E (tr ++ [start_daemon_event self]) = Some e →
  spawner_fault E (tr ++ [start_daemon_event self; start_daemon_event self])
    = None →
  let ch := {| ch_host := host self; ch_port := port self;
               ch_id := S (S (length tr)) |} in
  await (provide_client E tt) (self, tr)
    = (Raise e, (self, tr ++ [start_daemon_event self])) ∧
  provide_n E 2 (self, tr)
    = ([Raise e; Ok (client_of {| channel_of := ch |} self)],
       (connected_to self ch,
        tr ++ [start_daemon_event self; start_daemon_event self;
               EvChannel ch])).
Proof.
  intros Hnone Hfail Hok ch.
  assert (await (provide_client E tt) (self, tr)
            = (Raise e, (self, tr ++ [start_daemon_event self]))) as H1.
  { rewrite provide_client_run. cbv zeta. fold (start_daemon_event self).
    by rewrite Hfail. }
  split; [done|].
  simpl. rewrite H1.
  rewrite provide_client_run. cbv zeta. fold (start_daemon_event self).
  rewrite <- app_assoc. simpl. rewrite Hok.
  rewrite provide_client_resume_first by (by left). cbv zeta.
  rewrite length_app, <- app_assoc. simpl.
  by replace (length tr + 2)%nat with (S (S (length tr))) by lia.
Qed.

Lemma provide_client_retries_after_failure_witness :
  provide_n spawner_fails_once 2 (resolved local_companion, [])
    = ([Raise (OtherError "DaemonUnavailable" []);
        Ok (client_of
              {| channel_of :=
                   {| ch_host := "localhost"; ch_port := 9889;
                      ch_id := 2 |} |}
              (resolved local_companion))],
       (connected_to (resolved local_companion)
          {| ch_host := "localhost"; ch_port := 9889; ch_id := 2 |},
        [start_daemon_event (resolved local_companion);
         start_daemon_event (resolved local_companion);
         EvChannel {| ch_host := "localhost"; ch_port := 9889;
                      ch_id := 2 |}])).
Proof.
  destruct (provide_client_retries_after_failure spawner_fails_once
              (resolved local_companion) []
              (OtherError "DaemonUnavailable" []) eq_refl eq_refl eq_refl)
    as [_ H].
  exact H.
Defined.

(** X8: [provide_client] touches nothing of the facade but the daemon
    channel and the daemon stub: port, host, logger, flag, identifier and
    the whole companion side are as before, whether it returns or raises.
    It keeps the companion side whole, and a daemon side that was whole or
    absent is whole afterwards. *)
Theorem provide_client_frame E self tr :
  let self' := fst (snd (await (provide_client E tt) (self, tr))) in
  same_but_daemon self self' ∧
  (companion_wf self → companion_wf self') ∧
  (daemon_wf self → daemon_wf self').
Proof.
  cbv zeta. rewrite provide_client_run. cbv zeta.
  destruct (spawner_fault E _).
  { simpl. by repeat split. }
  destruct (daemon_channel self) as [ch|] eqn:Hch;
    [destruct (daemon_stub self) as [st|] eqn:Hst|].
  - rewrite (provide_client_resume_cached _ _ ch st) by done. simpl.
    by repeat split.
  - rewrite provide_client_resume_first by (by right). simpl.
    by repeat split.
  - rewrite provide_client_resume_first by (by left). simpl.
    by repeat split.
Qed.

Lemma provide_client_frame_witness :
  companion_wf
    (fst (snd (await (provide_client (quiet local_companion []) tt)
                 (resolved local_companion, [])))).
Proof.
  destruct (provide_client_frame (quiet local_companion [])
              (resolved local_companion) []) as (_ & H & _).
  apply H. by repeat split.
Defined.

Lemma provide_n_connected E self ch st :
  daemon_channel self = Some ch → daemon_stub self = Some st →
  (∀ tr, spawner_fault E tr = None) →
  ∀ n tr,
    provide_n E n (self, tr)
      = (replicate n (Ok (client_of st self)),
         (self, tr ++ replicate n (start_daemon_event self))).
Proof.
  intros Hch Hst Hok n. induction n as [|n IH]; intros tr; simpl.
  - by rewrite app_nil_r.
  - rewrite (provide_client_again _ _ _ ch st) by done.
    rewrite Hok, IH. by rewrite <- app_assoc.
Qed.

(** X9: with a spawner that never raises, any number of invocations in
    sequence on a facade without daemon connection build one channel in
    all, at the first invocation; each invocation asks the spawner once,
    and all return the same client. *)
Theorem provide_n_dials_once E self tr n :
  daemon_channel self = None →
  (∀ tr', spawner_fault E tr' = None) →
  let ch := {| ch_host := host self; ch_port := port self;
               ch_id := S (length tr) |} in
  provide_n E (S n) (self, tr)
    = (replicate (S n) (Ok (client_of {| channel_of := ch |} self)),
       (connected_to self ch,
        tr ++ [start_daemon_event self; EvChannel ch]
           ++ replicate n (start_daemon_event self))).
Proof.
  intros Hnone Hok ch. simpl.
  rewrite provide_client_run. cbv zeta. fold (start_daemon_event self).
  rewrite Hok, provide_client_resume_first by (by left). cbv zeta.
  rewrite length_app. simpl.
  replace (length tr + 1)%nat with (S (length tr)) by lia. fold ch.
  rewrite (provide_n_connected E _ ch {| channel_of := ch |}) by done.
  by rewrite <- !app_assoc.
Qed.

Lemma provide_n_dials_once_witness :
  provide_n (quiet local_companion []) 3 (resolved local_companion, [])
    = (replicate 3
         (Ok (client_of
                {| channel_of :=
                     {| ch_host := "localhost"; ch_port := 9889;
                        ch_id := 1 |} |}
                (resolved local_companion))),
       (connected_to (resolved local_companion)
          {| ch_host := "localhost"; ch_port := 9889; ch_id := 1 |},
        [] ++ [start_daemon_event (resolved local_companion);
               EvChannel {| ch_host := "localhost"; ch_port := 9889;
                            ch_id := 1 |}]
           ++ replicate 2 (start_daemon_event (resolved local_companion)))).
Proof.
  exact (provide_n_dials_once (quiet local_companion [])
           (resolved local_companion) [] 2 eq_refl (λ _, eq_refl)).
Defined.

(** ** What the direct calls leave alone *)

Lemma only_emits_ret {A} self P (a : A) : only_emits self P (mret a).
Proof. intros tr. exists []. simpl. by rewrite app_nil_r. Qed.

Lemma only_emits_throw {A} self P (e : exn) :
  only_emits self P (mthrow (M := M) (A := A) e).
Proof. intros tr. exists []. simpl. by rewrite app_nil_r. Qed.

Lemma only_emits_get_self self P : only_emits self P get_self.
Proof. intros tr. exists []. simpl. by rewrite app_nil_r. Qed.

Lemma only_emits_get_trace self P : only_emits self P get_trace.
Proof. intros tr. exists []. simpl. by rewrite app_nil_r. Qed.

Lemma only_emits_lift_fault self P o : only_emits self P (lift_fault o).
Proof. destruct o; [apply only_emits_throw | apply only_emits_ret]. Qed.

Lemma only_emits_emit self (P : event → Prop) e :
  P e → only_emits self P (emit e).
Proof. intros He tr. exists [e]. split; [done|]. by constructor. Qed.

Lemma only_emits_bind {A B} self P (c : M A) (f : A → M B) :
  only_emits self P c → (∀ a, only_emits self P (f a)) →
  only_emits self P (c ≫= f).
Proof.
  intros Hc Hf tr. unfold mbind, M_bind.
  destruct (Hc tr) as (r1 & H1 & HP1).
  destruct (c (self, tr)) as [[a|e] s1]; simpl in H1; subst s1.
  - destruct (Hf a (tr ++ r1)) as (r2 & H2 & HP2).
    exists (r1 ++ r2). rewrite H2, app_assoc. split; [done|].
    by apply Forall_app.
  - by exists r1.
Qed.

Lemma only_emits_try_finally {A} self P (c : M A) (f : M unit) :
  only_emits self P c → only_emits self P f →
  only_emits self P (try_finally c f).
Proof.
  intros Hc Hf tr. unfold try_finally.
  destruct (Hc tr) as (r1 & H1 & HP1).
  destruct (c (self, tr)) as [r s1]; simpl in H1; subst s1.
  destruct (Hf (tr ++ r1)) as (r2 & H2 & HP2).
  destruct (f (self, tr ++ r1)) as [[[]|e] s2]; simpl in H2; subst s2;
    exists (r1 ++ r2); simpl; rewrite app_assoc; (split; [done|]);
    by apply Forall_app.
Qed.

Lemma only_emits_mapM {A B} self P (f : A → M B) (l : list A) :
  (∀ a, only_emits self P (f a)) → only_emits self P (mapM f l).
Proof.
  intros Hf. induction l as [|a l IH]; simpl.
  - apply only_emits_ret.
  - apply only_emits_bind; [apply Hf|]. intros b.
    apply only_emits_bind; [apply IH|]. intros k. apply only_emits_ret.
Qed.

Lemma only_emits_transport E self (P : event → Prop) e :
  P e → only_emits self P (transport E e).
Proof.
  intros He. unfold transport.
  apply only_emits_bind; [by apply only_emits_emit|]. intros _.
  apply only_emits_bind; [apply only_emits_get_trace|]. intros tr.
  apply only_emits_lift_fault.
Qed.

Lemma only_emits_getattr_companion_info self P :
  only_emits self P getattr_companion_info.
Proof.
  unfold getattr_companion_info.
  apply only_emits_bind; [apply only_emits_get_self|]. intros s.
  destruct (companion_info s);
    [apply only_emits_ret | apply only_emits_throw].
Qed.

Lemma only_emits_InstalledAppInfo_of E self P app :
  only_emits self P (InstalledAppInfo_of E app).
Proof.
  unfold InstalledAppInfo_of, AppProcessState_of.
  apply only_emits_bind; [|intros ?; apply only_emits_ret].
  destruct (is_process_state E _);
    [apply only_emits_ret | apply only_emits_throw].
Qed.

Lemma only_emits_APPROVE_MAP_getitem self P p :
  only_emits self P (APPROVE_MAP_getitem p).
Proof.
  unfold APPROVE_MAP_getitem.
  destruct (APPROVE_MAP !! p);
    [apply only_emits_ret | apply only_emits_throw].
Qed.

(** The part of a direct call after the lookup of the stub. *)
Lemma only_emits_after_stub {A} attr self st P (k : CompanionServiceStub → M A) :
  stub self = Some st →
  only_emits self P (k st) →
  only_emits self P (getattr_stub attr ≫= k).
Proof.
  intros Hst Hk tr.
  rewrite (bind_Ok _ _ _ st (self, tr)) by (by apply getattr_stub_Some).
  apply Hk.
Qed.

Lemma only_emits_decorated {A R} self (P : event → Prop) name
    (body : A → M R) args :
  P (EvLogCall name) →
  only_emits self P (body args) →
  only_emits self P
    (await (log_and_handle_exceptions name (async_def body) args)).
Proof.
  intros Hlog Hbody tr. rewrite decorated_async_def. simpl.
  destruct (Hbody (tr ++ [EvLogCall name])) as (rest & Hrun & HP).
  exists (EvLogCall name :: rest). rewrite Hrun, <- app_assoc.
  split; [done|]. by constructor.
Qed.

(** The body of the [async with] of [add_media]: operations of the open
    stream and nothing else. *)
Lemma only_emits_upload E self ci file_paths :
  only_emits self is_stream_op
    (if is_local ci then
       mapM (λ file_path,
               send_message E (AddMediaRequest (Payload_file_path file_path)))
            file_paths;;
       stream_end E;;
       recv_message E
     else
       drain_to_stream E
         (stream_map (generate_tar E file_paths true)
            (λ chunk, AddMediaRequest (Payload_data chunk)))).
Proof.
  destruct (is_local ci);
    unfold drain_to_stream, send_message, stream_end, recv_message.
  - apply only_emits_bind.
    { apply only_emits_mapM. intros p. by apply only_emits_transport. }
    intros _. apply only_emits_bind; [by apply only_emits_transport|].
    intros _. by apply only_emits_transport.
  - apply only_emits_bind.
    { apply only_emits_mapM. intros p. by apply only_emits_transport. }
    intros _. apply only_emits_bind; [apply only_emits_lift_fault|].
    intros _. apply only_emits_bind; [by apply only_emits_transport|].
    intros _. by apply only_emits_transport.
Qed.

Lemma only_emits_weaken {A} self (P Q : event → Prop) (c : M A) :
  (∀ e, P e → Q e) → only_emits self P c → only_emits self Q c.
Proof.
  intros HPQ Hc tr. destruct (Hc tr) as (rest & Hrun & HP).
  exists rest. split; [done|]. by eapply Forall_impl.
Qed.

(** X10: on a facade with a companion stub, each of the direct calls
    [list_apps], [accessibility_info], [add_media] and [approve] leaves
    the facade object as it is, whether it returns or raises, and puts on
    the trace only its call-boundary event, requests and streams on the
    companion's channel and operations of the stream it opened: it never
    asks the spawner and never builds a channel. *)
Theorem direct_calls_use_companion_channel E self st :
  stub self = Some st →
  only_emits self (on_channel (channel_of st)) (await (list_apps E tt)) ∧
  (∀ point, only_emits self (on_channel (channel_of st))
              (await (accessibility_info E point))) ∧
  (∀ paths, only_emits self (on_channel (channel_of st))
              (await (add_media E paths))) ∧
  (∀ args, only_emits self (on_channel (channel_of st))
             (await (approve E args))).
Proof.
  intros Hst. repeat split.
  - apply only_emits_decorated; [done|].
    unfold list_apps_body. apply (only_emits_after_stub _ _ st); [done|].
    apply only_emits_bind; [by apply only_emits_transport|]. intros _.
    apply only_emits_bind; [apply only_emits_get_trace|]. intros tr.
    apply only_emits_mapM. intros app. apply only_emits_InstalledAppInfo_of.
  - intros point. apply only_emits_decorated; [done|].
    unfold accessibility_info_body.
    apply (only_emits_after_stub _ _ st); [done|].
    apply only_emits_bind; [by apply only_emits_transport|]. intros _.
    apply only_emits_bind; [apply only_emits_get_trace|]. intros tr.
    apply only_emits_ret.
  - intros paths. apply only_emits_decorated; [done|].
    unfold add_media_body. apply (only_emits_after_stub _ _ st); [done|].
    unfold async_with_open.
    apply only_emits_bind; [by apply only_emits_transport|]. intros _.
    apply only_emits_try_finally; [|by apply only_emits_emit].
    apply only_emits_bind; [apply only_emits_getattr_companion_info|].
    intros ci. eapply only_emits_weaken; [|apply only_emits_upload].
    by intros [].
  - intros [bundle permissions]. apply only_emits_decorated; [done|].
    unfold approve_body. apply (only_emits_after_stub _ _ st); [done|].
    apply only_emits_bind.
    { apply only_emits_mapM. intros p. apply only_emits_APPROVE_MAP_getitem. }
    intros perms. by apply only_emits_transport.
Qed.

Lemma direct_calls_use_companion_channel_witness :
  only_emits (resolved local_companion)
    (on_channel (companion_channel local_companion))
    (await (add_media second_send_fails ["a.png"; "b.png"; "c.mov"])).
Proof.
  destruct (direct_calls_use_companion_channel second_send_fails
              (resolved local_companion)
              {| channel_of := companion_channel local_companion |} eq_refl)
    as (_ & _ & H & _).
  exact (H ["a.png"; "b.png"; "c.mov"]).
Defined.

(** ** [list_apps] *)

Lemma mapM_installed_ok E apps s :
  Forall (λ app, is_process_state E (app_process_state app) = true) apps →
  mapM (InstalledAppInfo_of E) apps s = (Ok (installed_app <$> apps), s).
Proof.
  induction 1 as [|app apps Hv _ IH]; [done|]. simpl.
  erewrite bind_Ok.
  2:{ unfold InstalledAppInfo_of, AppProcessState_of. rewrite Hv.
      reflexivity. }
  erewrite bind_Ok; [|apply IH]. reflexivity.
Qed.

Lemma mapM_installed_bad E apps s app :
  app ∈ apps → is_process_state E (app_process_state app) = false →
  mapM (InstalledAppInfo_of E) apps s
    = (Raise (OtherError "ValueError" []), s).
Proof.
  induction apps as [|a apps IH]; intros Hin Hbad.
  - by apply elem_of_nil in Hin.
  - simpl.
    destruct (is_process_state E (app_process_state a)) eqn:Ha.
    + erewrite bind_Ok.
      2:{ unfold InstalledAppInfo_of, AppProcessState_of. rewrite Ha.
          reflexivity. }
      erewrite bind_Raise; [reflexivity|]. apply IH; [|done].
      apply elem_of_cons in Hin as [->|]; [congruence|done].
    + erewrite bind_Raise; [reflexivity|].
      unfold InstalledAppInfo_of, AppProcessState_of. by rewrite Ha.
Qed.

(** X11: when the transport answers the request and every app of the
    response has a process state of the enumeration, [list_apps] makes
    one [list_apps] request on the companion's channel and returns one
    record per app of the response, in the order of the response, with
    the fields of the app. *)
Theorem list_apps_returns_every_app E self tr st :
  let tr1 := tr ++ [EvLogCall "list_apps";
                    EvUnary (channel_of st) "list_apps" ListAppsRequest] in
  stub self = Some st →
  transport_fault E tr1 = None →
  Forall (λ app, is_process_state E (app_process_state app) = true)
         (list_apps_reply E tr1) →
  await (list_apps E tt) (self, tr)
    = (Ok (installed_app <$> list_apps_reply E tr1), (self, tr1)).
Proof.
  intros tr1 Hst Hok Hvalid. unfold list_apps. rewrite decorated_async_def.
  unfold list_apps_body, unary. simpl.
  erewrite bind_Ok; [|by apply getattr_stub_Some].
  erewrite bind_Ok;
    [|apply transport_ok; rewrite <- app_assoc; exact Hok].
  run. rewrite <- app_assoc. simpl. by apply mapM_installed_ok.
Qed.

Lemma list_apps_returns_every_app_witness :
  await (list_apps (with_apps [safari]) tt) (resolved local_companion, [])
    = (Ok [installed_app safari],
       (resolved local_companion,
        [EvLogCall "list_apps";
         EvUnary (companion_channel local_companion) "list_apps"
           ListAppsRequest])).
Proof.
  apply (list_apps_returns_every_app (with_apps [safari])
           (resolved local_companion) []
           {| channel_of := companion_channel local_companion |}).
  - reflexivity.
  - reflexivity.
  - simpl. constructor; [reflexivity|constructor].
Defined.

(** X12: one app of the response whose process state is no member of the
    enumeration makes the whole of [list_apps] fail with the enumeration's
    [ValueError], after the request was made and answered: no record is
    returned, not even for the apps before it. *)
Theorem list_apps_rejects_unknown_state E self tr st app :
  let tr1 := tr ++ [EvLogCall "list_apps";
                    EvUnary (channel_of st) "list_apps" ListAppsRequest] in
  stub self = Some st →
  transport_fault E tr1 = None →
  app ∈ list_apps_reply E tr1 →
  is_process_state E (app_process_state app) = false →
  await (list_apps E tt) (self, tr)
    = (Raise (OtherError "ValueError" []), (self, tr1)).
Proof.
  intros tr1 Hst Hok Hin Hbad. unfold list_apps. rewrite decorated_async_def.
  unfold list_apps_body, unary. simpl.
  erewrite bind_Ok; [|by apply getattr_stub_Some].
  erewrite bind_Ok;
    [|apply transport_ok; rewrite <- app_assoc; exact Hok].
  run. rewrite <- app_assoc. simpl. by eapply mapM_installed_bad.
Qed.

Lemma list_apps_rejects_unknown_state_witness :
  await (list_apps (with_apps [safari; broken_app]) tt)
        (resolved local_companion, [])
    = (Raise (OtherError "ValueError" []),
       (resolved local_companion,
        [EvLogCall "list_apps";
         EvUnary (companion_channel local_companion) "list_apps"
           ListAppsRequest])).
Proof.
  apply (list_apps_rejects_unknown_state (with_apps [safari; broken_app])
           (resolved local_companion) []
           {| channel_of := companion_channel local_companion |} broken_app).
  - reflexivity.
  - reflexivity.
  - simpl. apply elem_of_cons. right. apply elem_of_cons. by left.
  - reflexivity.
Defined.

(** ** The upload on a transport that may fail *)

(** A loop of [send_message] either sends every item, or stops at the
    first message the transport fails: the messages on the stream are then
    those of a prefix of the items, the failed one last. *)
Lemma mapM_send_any {A} E (f : A → request) l : ∀ self tr,
  mapM (λ a, send_message E (f a)) l (self, tr)
    = (Ok (const tt <$> l), (self, tr ++ ((λ a, EvSend (f a)) <$> l)))
  ∨ ∃ k e, (k ≤ length l)%nat ∧
      mapM (λ a, send_message E (f a)) l (self, tr)
        = (Raise e, (self, tr ++ ((λ a, EvSend (f a)) <$> take k l))).
Proof.
  induction l as [|a l IH]; intros self tr; simpl.
  - left. by rewrite app_nil_r.
  - unfold send_message at 1 3.
    destruct (transport_fault E (tr ++ [EvSend (f a)])) as [e|] eqn:Hf.
    + right. exists 1%nat, e. split; [simpl; lia|].
      erewrite bind_Raise; [|by apply transport_fails].
      reflexivity.
    + destruct (IH self (tr ++ [EvSend (f a)]))
        as [Hall|(k & e & Hk & Hrun)].
      * left. erewrite bind_Ok; [|by apply transport_ok].
        erewrite bind_Ok; [|apply Hall]. run. by rewrite <- app_assoc.
      * right. exists (S k), e. split; [simpl; lia|].
        erewrite bind_Ok; [|by apply transport_ok].
        erewrite bind_Raise; [|apply Hrun]. simpl. by rewrite <- app_assoc.
Qed.

Lemma try_finally_close {A} self P (body : M A) tr :
  only_emits self P body →
  ∃ r mid,
    try_finally body (emit EvClose) (self, tr)
      = (r, (self, tr ++ mid ++ [EvClose])) ∧
    Forall P mid.
Proof.
  intros Hbody. destruct (Hbody tr) as (mid & Hrun & Hmid).
  unfold try_finally.
  destruct (body (self, tr)) as [r s1]. simpl in Hrun. subst s1.
  exists r, mid. split; [|done]. by rewrite emit_run, <- app_assoc.
Qed.

(** X13: once [add_media] has the stream open, the stream is closed on
    every way out, normal or exceptional, and exactly once: the trace of
    the call is the call-boundary event, the opening, operations of the
    stream, and the closing as the last event.  If the opening itself
    fails, the exception is the caller's and nothing more happens. *)
Theorem add_media_closes_stream E self tr st file_paths :
  let tr1 := tr ++ [EvLogCall "add_media";
                    EvStreamOpen (channel_of st) "add_media"] in
  stub self = Some st →
  match transport_fault E tr1 with
  | Some e =>
      await (add_media E file_paths) (self, tr) = (Raise e, (self, tr1))
  | None =>
      ∃ r mid,
        await (add_media E file_paths) (self, tr)
          = (r, (self, tr1 ++ mid ++ [EvClose])) ∧
        Forall is_stream_op mid
  end.
Proof.
  intros tr1 Hst. unfold add_media. rewrite decorated_async_def.
  unfold add_media_body, async_with_open. simpl.
  erewrite bind_Ok; [|by apply getattr_stub_Some].
  destruct (transport_fault E tr1) as [e|] eqn:Hopen.
  - erewrite bind_Raise;
      [|apply transport_fails; rewrite <- app_assoc; exact Hopen].
    by rewrite <- app_assoc.
  - erewrite bind_Ok;
      [|apply transport_ok; rewrite <- app_assoc; exact Hopen].
    rewrite <- app_assoc. simpl.
    apply try_finally_close.
    apply only_emits_bind; [apply only_emits_getattr_companion_info|].
    intros ci. apply only_emits_upload.
Qed.

Lemma add_media_closes_stream_witness :
  ∃ r mid,
    await (add_media second_send_fails ["a.png"; "b.png"; "c.mov"])
          (resolved local_companion, [])
      = (r, (resolved local_companion,
             ([] ++ [EvLogCall "add_media";
                     EvStreamOpen (companion_channel local_companion)
                       "add_media"])
             ++ mid ++ [EvClose])) ∧
    Forall is_stream_op mid.
Proof.
  exact (add_media_closes_stream second_send_fails
           (resolved local_companion) []
           {| channel_of := companion_channel local_companion |}
           ["a.png"; "b.png"; "c.mov"] eq_refl).
Defined.

(** X14: against a local companion, with the stream open and whatever the
    transport does afterwards: the path messages on the stream are those
    of a prefix of the list, in list order; the end of input is signalled
    only after the message of the last path, and the acknowledgment is
    read only after the end of input; the stream is closed in every case;
    and the call returns normally only if all of it happened. *)
Theorem local_upload_sends_prefix E self tr st ci file_paths :
  let tr1 := tr ++ [EvLogCall "add_media";
                    EvStreamOpen (channel_of st) "add_media"] in
  stub self = Some st →
  companion_info self = Some ci →
  is_local ci = true →
  transport_fault E tr1 = None →
  ∃ k j r,
    (k ≤ length file_paths)%nat ∧
    (0 < j → k = length file_paths)%nat ∧
    (r = Ok tt → j = 2%nat) ∧
    await (add_media E file_paths) (self, tr)
      = (r, (self,
             tr1 ++ ((λ p, EvSend (AddMediaRequest (Payload_file_path p)))
                       <$> take k file_paths)
                 ++ take j [EvEnd; EvRecv] ++ [EvClose])).
Proof.
  intros tr1 Hst Hci Hloc Hopen. unfold add_media.
  rewrite decorated_async_def.
  unfold add_media_body, async_with_open. simpl.
  erewrite bind_Ok; [|by apply getattr_stub_Some].
  erewrite bind_Ok;
    [|apply transport_ok; rewrite <- app_assoc; exact Hopen].
  rewrite <- app_assoc. simpl. fold tr1.
  unfold try_finally, getattr_companion_info.
  erewrite bind_Ok; [|run; rewrite Hci; reflexivity].
  rewrite Hloc.
  set (sendp := λ p, EvSend (AddMediaRequest (Payload_file_path p))).
  destruct (mapM_send_any E (λ p, AddMediaRequest (Payload_file_path p))
              file_paths self tr1) as [Hall|(k & e & Hk & Hrun)].
  - erewrite bind_Ok; [|apply Hall]. fold sendp.
    unfold stream_end, recv_message.
    destruct (transport_fault E ((tr1 ++ (sendp <$> file_paths)) ++ [EvEnd]))
      as [e|] eqn:Hend.
    + erewrite bind_Raise; [|by apply transport_fails].
      exists (length file_paths), 1%nat, (Raise e).
      rewrite firstn_all, emit_run, <- !app_assoc.
      repeat split; try done; lia.
    + erewrite bind_Ok; [|by apply transport_ok].
      destruct (transport_fault E
                  (((tr1 ++ (sendp <$> file_paths)) ++ [EvEnd]) ++ [EvRecv]))
        as [e|] eqn:Hrecv.
      * rewrite (transport_fails _ _ _ _ e) by done.
        exists (length file_paths), 2%nat, (Raise e).
        rewrite firstn_all, emit_run, <- !app_assoc.
        repeat split; try done; lia.
      * rewrite transport_ok by done.
        exists (length file_paths), 2%nat, (Ok tt).
        rewrite firstn_all, emit_run, <- !app_assoc.
        repeat split; try done; lia.
  - erewrite bind_Raise; [|apply Hrun]. fold sendp.
    exists k, 0%nat, (Raise e). rewrite emit_run, <- !app_assoc.
    repeat split; try done; lia.
Qed.

Lemma local_upload_sends_prefix_witness :
  ∃ k j r,
    (k ≤ 3)%nat ∧ (0 < j → k = 3)%nat ∧ (r = Ok tt → j = 2%nat) ∧
    await (add_media second_send_fails ["a.png"; "b.png"; "c.mov"])
          (resolved local_companion, [])
      = (r, (resolved local_companion,
             ([] ++ [EvLogCall "add_media";
                     EvStreamOpen (companion_channel local_companion)
                       "add_media"])
             ++ ((λ p, EvSend (AddMediaRequest (Payload_file_path p)))
                   <$> take k ["a.png"; "b.png"; "c.mov"])
             ++ take j [EvEnd; EvRecv] ++ [EvClose])).
Proof.
  exact (local_upload_sends_prefix second_send_fails
           (resolved local_companion) []
           {| channel_of := companion_channel local_companion |}
           local_companion ["a.png"; "b.png"; "c.mov"]
           eq_refl eq_refl eq_refl eq_refl).
Defined.

(** ** [approve] with permissions of the table *)

Lemma mapM_getitem_known permissions s :
  Forall (λ p, is_Some (APPROVE_MAP !! p)) permissions →
  ∃ perms,
    Forall2 (λ p v, APPROVE_MAP !! p = Some v) permissions perms ∧
    mapM APPROVE_MAP_getitem permissions s = (Ok perms, s).
Proof.
  induction 1 as [|p l [v Hv] _ (perms & Hall & Hrun)].
  - exists []. by split.
  - exists (v :: perms). split; [by constructor|]. simpl.
    erewrite bind_Ok;
      [|unfold APPROVE_MAP_getitem; rewrite Hv; reflexivity].
    erewrite bind_Ok; [|apply Hrun]. reflexivity.
Qed.

(** X15: when every requested name is a key of [APPROVE_MAP], [approve]
    makes exactly one [approve] request on the companion's channel,
    carrying the bundle identifier and, for each name in the order of
    iteration, the permission the table gives it; the call returns
    normally unless the transport fails that request. *)
Theorem approve_sends_mapped_permissions E self tr st bundle permissions :
  stub self = Some st →
  Forall (λ p, is_Some (APPROVE_MAP !! p)) permissions →
  ∃ perms,
    Forall2 (λ p v, APPROVE_MAP !! p = Some v) permissions perms ∧
    let tr1 := tr ++ [EvLogCall "approve";
                      EvUnary (channel_of st) "approve"
                        (ApproveRequest bundle perms)] in
    await (approve E (bundle, permissions)) (self, tr)
      = (match transport_fault E tr1 with
         | Some e => Raise e
         | None => Ok tt
         end, (self, tr1)).
Proof.
  intros Hst Hknown.
  destruct (mapM_getitem_known permissions
              (self, tr ++ [EvLogCall "approve"]) Hknown)
    as (perms & Hall & Hrun).
  exists perms. split; [done|]. cbv zeta.
  unfold approve. rewrite decorated_async_def.
  unfold approve_body, unary. simpl.
  erewrite bind_Ok; [|by apply getattr_stub_Some].
  erewrite bind_Ok; [|apply Hrun].
  destruct (transport_fault E _) as [e|] eqn:Hf.
  - rewrite (transport_fails _ _ _ _ e)
      by (rewrite <- app_assoc; exact Hf).
    by rewrite <- app_assoc.
  - rewrite transport_ok by (rewrite <- app_assoc; exact Hf).
    by rewrite <- app_assoc.
Qed.

Lemma approve_sends_mapped_permissions_witness :
  ∃ perms,
    Forall2 (λ p v, APPROVE_MAP !! p = Some v) ["contacts"; "photos"] perms ∧
    await (approve (quiet local_companion [])
             ("com.example.app", ["contacts"; "photos"]))
          (resolved local_companion, [])
      = (Ok tt,
         (resolved local_companion,
          [] ++ [EvLogCall "approve";
                 EvUnary (companion_channel local_companion) "approve"
                   (ApproveRequest "com.example.app" perms)])).
Proof.
  apply (approve_sends_mapped_permissions (quiet local_companion [])
           (resolved local_companion) []
           {| channel_of := companion_channel local_companion |}
           "com.example.app" ["contacts"; "photos"]).
  - reflexivity.
  - repeat constructor; rewrite APPROVE_MAP_lookup; by eexists.
Defined.

(** ** [accessibility_info] and shadowed registry names *)

(** X17: on a facade with a companion stub, [accessibility_info] makes
    exactly one request on the companion's channel, carrying the point as
    it was given ([None] stays no point), and returns the [json] of the
    response; if the transport fails the request, that exception is the
    result. *)
Theorem accessibility_info_one_request E self tr st point :
  let tr1 := tr ++ [EvLogCall "accessibility_info";
                    EvUnary (channel_of st) "accessibility_info"
                      (AccessibilityInfoRequest point)] in
  stub self = Some st →
  await (accessibility_info E point) (self, tr)
    = (match transport_fault E tr1 with
       | Some e => Raise e
       | None => Ok {| json := accessibility_info_reply E tr1 |}
       end, (self, tr1)).
Proof.
  intros tr1 Hst. unfold accessibility_info. rewrite decorated_async_def.
  unfold accessibility_info_body, unary. simpl.
  erewrite bind_Ok; [|by apply getattr_stub_Some].
  destruct (transport_fault E tr1) as [e|] eqn:Hf.
  - erewrite bind_Raise;
      [|apply transport_fails; rewrite <- app_assoc; exact Hf].
    by rewrite <- app_assoc.
  - erewrite bind_Ok; [|apply transport_ok; rewrite <- app_assoc; exact Hf].
    run. by rewrite <- app_assoc.
Qed.

Lemma accessibility_info_one_request_witness :
  await (accessibility_info (quiet local_companion []) None)
        (resolved local_companion, [])
    = (Ok {| json := "{}" |},
       (resolved local_companion,
        [EvLogCall "accessibility_info";
         EvUnary (companion_channel local_companion) "accessibility_info"
           (AccessibilityInfoRequest None)])).
Proof.
  exact (accessibility_info_one_request (quiet local_companion [])
           (resolved local_companion) []
           {| channel_of := companion_channel local_companion |} None
           eq_refl).
Defined.

(** X18: a registry call named [direct_companion_manager], [channel] or
    [stub] is never reachable on a constructed facade: the attribute of
    that name that [__init__] assigns after the loop takes its place.  The
    same holds for [companion_info] when the resolver returns a
    companion. *)
Theorem registry_calls_shadowed E p h u l k tr F tr' :
  GrpcClient_new E p h u l k tr = (Ok F, tr') →
  calls F !! "direct_companion_manager" = None ∧
  calls F !! "channel" = None ∧
  calls F !! "stub" = None ∧
  (is_Some (companion_info (fields F)) →
   calls F !! "companion_info" = None).
Proof.
  rewrite GrpcClient_new_cases. cbv zeta.
  destruct (install_calls _ _) as [d|e]; [|discriminate].
  destruct (get_companion_info E u) as [ci|[]]; try discriminate;
    intros Hnew; injection Hnew as <- <-; simpl.
  - repeat split; try (intros _); by simplify_map_eq.
  - repeat split; try (by simplify_map_eq); by intros [? ?].
Qed.

Lemma shadowing_new :
  GrpcClient_new shadowing 9889 "localhost" None None false []
    = (Ok shadowing_facade, shadowing_trace).
Proof. rewrite GrpcClient_new_cases. reflexivity. Qed.

Lemma registry_calls_shadowed_witness :
  calls shadowing_facade !! "stub" = None.
Proof.
  destruct (registry_calls_shadowed shadowing 9889 "localhost" None None
              false [] shadowing_facade shadowing_trace shadowing_new)
    as (_ & _ & H & _).
  exact H.
Defined.
